(** * python-proofmarshal: a shallow embedding of the serialization
    contexts (proofmarshal/__init__.py) and of the merbinner tree
    (proofmarshal/merbinnertree.py), with the properties of its spec. *)

From Stdlib Require Import List NArith Arith Lia Bool Permutation.
From Stdlib Require Import Strings.Byte.
From Stdlib Require Strings.String Strings.Ascii.
Import String.StringSyntax.
Import ListNotations.

(** ** Exceptions and the error monad

    Python raises; the embedding returns [Err] with the kind of exception. *)

Inductive error : Type :=
  | IndexError                  (* bytes indexed out of range: key[depth // 8] *)
  | AssertionError              (* a failed [assert] (length checks, fd_read) *)
  | StructError                 (* struct.pack / struct.unpack out of range *)
  | UnsupportedNodeType (t : N) (* raise Exception('unsupported node type: %d') *)
  | ImmutableAttribute          (* AttributeError('Object is immutable') *)
  | KeyError                    (* a missing key of a dict: del d[key] *)
  | OutOfFuel.                  (* recursion bound of the embedding, never reached *)

Inductive result (A : Type) : Type :=
  | Ok (a : A)
  | Err (e : error).
Arguments Ok {A} a.
Arguments Err {A} e.

Definition bind {A B} (r : result A) (k : A -> result B) : result B :=
  match r with
  | Ok a => k a
  | Err e => Err e
  end.

Notation "x <- r ;; k" := (bind r (fun x => k))
  (at level 61, r at next level, right associativity).
Notation "' p <- r ;; k" := (bind r (fun p => k))
  (at level 61, p pattern, r at next level, right associativity).

(** ** Bytes

    A Python [bytes] value is a [list byte]; [bytes([b])] is [byte_of b]
    (every value the code passes there is below 256). *)

Definition byte_of (n : N) : byte :=
  match Byte.of_N n with Some b => b | None => x00 end.

(** [x('...')] of the tests: bytes from a list of numbers. *)
Definition bs (l : list N) : list byte := map byte_of l.

(** ** StreamSerializationContext.write_varuint (unsigned LEB128)

    The [while value != 0] loop runs at most [bit_length(value)] times;
    [fuel] is that bound. *)

Fixpoint write_varuint_loop (fuel : nat) (value : N) : list byte :=
  match fuel with
  | O => []
  | S fuel' =>
      if (value =? 0)%N then [] else
      let b := N.land value 127 in
      let b := if (127 <? value)%N then N.lor b 128 else b in
      byte_of b ::
        (if (value <=? 127)%N then []
         else write_varuint_loop fuel' (N.shiftr value 7))
  end.

Definition write_varuint (value : N) : list byte :=
  if (value =? 0)%N then [x00]
  else write_varuint_loop (N.to_nat (N.size value)) value.

(** ** StreamDeserializationContext.read_varuint

    The input stream is the list of the bytes not read yet; reading past
    its end fails the [assert] of [fd_read]. *)

Fixpoint read_varuint_loop (inp : list byte) (value shift : N)
  : result (N * list byte) :=
  match inp with
  | [] => Err AssertionError
  | b :: rest =>
      let value := N.lor value (N.shiftl (N.land (Byte.to_N b) 127) shift) in
      if (N.land (Byte.to_N b) 128 =? 0)%N then Ok (value, rest)
      else read_varuint_loop rest value (shift + 7)
  end.

Definition read_varuint (inp : list byte) : result (N * list byte) :=
  read_varuint_loop inp 0 0.

(** ** write_bytes / read_bytes *)

(** [write_bytes(attr, value, expected_length)] of the stream and hashing
    contexts (the two are the same code). *)
Definition write_bytes (value : list byte) (expected_length : option nat)
  : result (list byte) :=
  match expected_length with
  | None => Ok (write_varuint (N.of_nat (length value)) ++ value)
  | Some l => if Nat.eqb (length value) l then Ok value else Err AssertionError
  end.

(** [fd_read(l)]: [assert len(r) == l]. *)
Definition fd_read (l : nat) (inp : list byte) : result (list byte * list byte) :=
  if Nat.leb l (length inp) then Ok (firstn l inp, skipn l inp)
  else Err AssertionError.

Definition read_bytes (expected_length : option nat) (inp : list byte)
  : result (list byte * list byte) :=
  match expected_length with
  | None => '(l, inp') <- read_varuint inp ;; fd_read (N.to_nat l) inp'
  | Some l => fd_read l inp
  end.

(** ** Serialization contexts

    The tree code only asks whether the active context is a
    [HashSerializationContext]; the other writing context it is used with is
    the byte-buffer one ([BytesSerializationContext], a stream context). *)

Inductive ctx_kind : Type :=
  | BytesCtx
  | HashCtx.

(** [bytes == bytes] *)
Definition bytes_eqb (a b : list byte) : bool :=
  if list_eq_dec Byte.byte_eq_dec a b then true else false.

(** ** The merbinner tree (merbinnertree.py)

    [hmac key msg] is [hmac.HMAC(key, msg, hashlib.sha256).digest()]; it is
    left abstract, every result below holds for any such function. *)

(** The class-level policy of a [MerbinnerTree] subclass (its class
    attributes). Keys are byte strings: the tree code indexes them,
    [key[depth // 8]]. [V] is the value type, [S] the sum type.
    [key_gethash], [value_gethash] and [sum_func] are total functions here:
    the record describes classes whose methods of these names return a
    value, as those of the test-suite classes below (the key or value
    itself, integer addition). The base class's default [key.hash] on a
    bytes key raises [AttributeError]; such a class is not covered. *)
Record MerbinnerClass (V Sum : Type) : Type := {
  HASH_HMAC_KEY : list byte;
  SUM_IDENTITY : Sum;
  key_serialize : ctx_kind -> list byte -> result (list byte);
  key_deserialize : list byte -> result (list byte * list byte);
  value_serialize : ctx_kind -> V -> result (list byte);
  value_deserialize : list byte -> result (V * list byte);
  sum_serialize : ctx_kind -> Sum -> result (list byte);
  key_gethash : list byte -> list byte;
  value_gethash : V -> list byte;
  value_getsum : V -> result Sum;
  sum_func : Sum -> Sum -> Sum
}.
Arguments HASH_HMAC_KEY {V Sum}.
Arguments SUM_IDENTITY {V Sum}.
Arguments key_serialize {V Sum}.
Arguments key_deserialize {V Sum}.
Arguments value_serialize {V Sum}.
Arguments value_deserialize {V Sum}.
Arguments sum_serialize {V Sum}.
Arguments key_gethash {V Sum}.
Arguments value_gethash {V Sum}.
Arguments value_getsum {V Sum}.
Arguments sum_func {V Sum}.

Section Merbinner.

Variable hmac : list byte -> list byte -> list byte.


(** [key[depth // 8] >> (7 - depth % 8) & 0b1], as a truth value (the
    [if side:] test). *)
Definition key_side (key : list byte) (depth : nat) : result bool :=
  match nth_error key (depth / 8) with
  | None => Err IndexError
  | Some b =>
      Ok (negb (N.land (N.shiftr (Byte.to_N b) (N.of_nat (7 - depth mod 8))) 1 =? 0)%N)
  end.

(** The side of [key_side] as a boolean, [false] where it raises (used
    to state what the partition loops compute). *)
Definition side_of (depth : nat) (key : list byte) : bool :=
  match key_side key depth with Ok b => b | Err _ => false end.

(** Largest key length of a list of entries. *)
Definition max_key_len {T} (getkey : T -> list byte) (items : list T) : nat :=
  fold_right (fun it m => Nat.max (length (getkey it)) m) 0 items.

Context {V Sum : Type}.
Variable cls : MerbinnerClass V Sum.

Definition tree_item : Type := (list byte * V * Sum)%type.

Definition item_key (it : tree_item) : list byte :=
  let '(key, _, _) := it in key.

(** The [(key, value)] entry of an item, as the [dict] holds it. *)
Definition item_entry (it : tree_item) : list byte * V :=
  let '(key, value, _) := it in (key, value).

(** The loop of [MerbinnerTree._ctx_serialize.recurse] that sorts the
    items of an inner node into left and right (lines 126-137). The key
    hash is computed and not used: the side is read from [key] itself.
    [key_gethash] returns for every key in the classes the record
    describes, so its call cannot raise here. *)
Fixpoint tree_partition (depth : nat) (items : list tree_item)
  : result (list tree_item * list tree_item) :=
  match items with
  | [] => Ok ([], [])
  | (key, value, sum) :: rest =>
      let keyhash := key_gethash cls key in
      side <- key_side key depth ;;
      '(left_items, right_items) <- tree_partition depth rest ;;
      if side then Ok ((key, value, sum) :: left_items, right_items)
      else Ok (left_items, (key, value, sum) :: right_items)
  end.

(** [MerbinnerTree._ctx_serialize.recurse(ctx, items, depth)]: the bytes
    written to [ctx] and the returned sum. Under a hashing context each side
    of an inner node goes to a fresh [HashSerializationContext] whose bytes
    are HMACed; the 32-byte digest and then the side's sum are written
    ([do_recurse]). [fuel] bounds the recursion depth. *)
Fixpoint tree_recurse (fuel : nat) (ctx : ctx_kind) (items : list tree_item)
  (depth : nat) {struct fuel} : result (list byte * Sum) :=
  match items with
  | [] => Ok (write_varuint 0, SUM_IDENTITY cls)
  | [(key, value, sum)] =>
      k <- key_serialize cls ctx key ;;
      v <- value_serialize cls ctx value ;;
      Ok (write_varuint 1 ++ k ++ v, sum)
  | _ =>
      '(left_items, right_items) <- tree_partition depth items ;;
      match fuel with
      | O => Err OutOfFuel
      | S fuel' =>
          let do_recurse (its : list tree_item) : result (list byte * Sum) :=
            match ctx with
            | HashCtx =>
                '(next_ctx, sum) <- tree_recurse fuel' HashCtx its (S depth) ;;
                let hash := hmac (HASH_HMAC_KEY cls) next_ctx in
                h <- write_bytes hash (Some 32) ;;
                s <- sum_serialize cls HashCtx sum ;;
                Ok (h ++ s, sum)
            | BytesCtx => tree_recurse fuel' BytesCtx its (S depth)
            end in
          '(l, left_sum) <- do_recurse left_items ;;
          '(r, right_sum) <- do_recurse right_items ;;
          Ok (write_varuint 2 ++ l ++ r, sum_func cls left_sum right_sum)
      end
  end.

(** [do_recurse(items)] of an inner node at depth [depth], with the
    recursion bound [fuel] of its children. *)
Definition tree_do_recurse (fuel : nat) (ctx : ctx_kind) (its : list tree_item)
  (depth : nat) : result (list byte * Sum) :=
  match ctx with
  | HashCtx =>
      '(next_ctx, sum) <- tree_recurse fuel HashCtx its (S depth) ;;
      let hash := hmac (HASH_HMAC_KEY cls) next_ctx in
      h <- write_bytes hash (Some 32) ;;
      s <- sum_serialize cls HashCtx sum ;;
      Ok (h ++ s, sum)
  | BytesCtx => tree_recurse fuel BytesCtx its (S depth)
  end.

(** A tree object: the [dict] entries, in insertion order. *)
Definition entries : Type := list (list byte * V).

(** [[(key, value, self.value_getsum(value)) for key, value in self.items()]] *)
Fixpoint tree_items (self : entries) : result (list tree_item) :=
  match self with
  | [] => Ok []
  | (key, value) :: rest =>
      s <- value_getsum cls value ;;
      its <- tree_items rest ;;
      Ok ((key, value, s) :: its)
  end.

(** The recursion goes one bit deeper per level and stops (with a leaf,
    an empty node or an IndexError) once the depth reaches the key length in
    bits: [8 * max_key_len] levels suffice. *)
Definition tree_fuel (self : entries) : nat := 8 * max_key_len fst self.

(** [MerbinnerTree._ctx_serialize(ctx)] *)
Definition ctx_serialize (ctx : ctx_kind) (self : entries) : result (list byte) :=
  items <- tree_items self ;;
  '(out, final_sum) <- tree_recurse (tree_fuel self) ctx items 0 ;;
  Ok out.

(** [ImmutableProof.serialize()] *)
Definition serialize (self : entries) : result (list byte) :=
  ctx_serialize BytesCtx self.

(** [ImmutableProof.calc_hash()] *)
Definition calc_hash (self : entries) : result (list byte) :=
  out <- ctx_serialize HashCtx self ;;
  Ok (hmac (HASH_HMAC_KEY cls) out).

(** [self[key] = value] on the [dict] base: an existing key keeps its
    place and gets the new value, a new key goes last. *)
Fixpoint dict_setitem (d : entries) (key : list byte) (value : V) : entries :=
  match d with
  | [] => [(key, value)]
  | (k, v) :: d' =>
      if bytes_eqb k key then (k, value) :: d' else (k, v) :: dict_setitem d' key value
  end.

(** [MerbinnerTree._ctx_deserialize.recurse()]: the tree under construction
    and the unread input are threaded through. Every call reads at least
    one byte, so [length input + 1] calls suffice. *)
Fixpoint deserialize_recurse (fuel : nat) (self : entries) (inp : list byte)
  : result (entries * list byte) :=
  match fuel with
  | O => Err OutOfFuel
  | S fuel' =>
      '(node_type, inp) <- read_varuint inp ;;
      if (node_type =? 0)%N then Ok (self, inp)
      else if (node_type =? 1)%N then
        '(key, inp) <- key_deserialize cls inp ;;
        '(value, inp) <- value_deserialize cls inp ;;
        Ok (dict_setitem self key value, inp)
      else if (node_type =? 2)%N then
        '(self, inp) <- deserialize_recurse fuel' self inp ;;
        deserialize_recurse fuel' self inp
      else Err (UnsupportedNodeType node_type)
  end.

(** [MerbinnerTree.ctx_deserialize(ctx)]: [cls.__new__(cls)] is an empty
    dict, then [_ctx_deserialize] fills it; returns the tree and the input
    left unread. *)
Definition ctx_deserialize (inp : list byte) : result (entries * list byte) :=
  deserialize_recurse (S (length inp)) [] inp.

(** [ImmutableProof.deserialize(buf)]: a [BytesDeserializationContext] over
    [buf]; what [ctx_deserialize] leaves unread is dropped. *)
Definition deserialize (buf : list byte) : result entries :=
  '(self, _) <- ctx_deserialize buf ;;
  Ok self.

End Merbinner.

(** ** The standalone hash-only algorithm *)

Section Standalone.

Context {Sum : Type}.

Definition hash_item : Type := (list byte * list byte * Sum)%type.

Definition hash_item_key (it : hash_item) : list byte :=
  let '(key, _, _) := it in key.

(** The partition loop of [calc_summed_merbinner_hash] (lines 48-58). *)
Fixpoint hash_partition (depth : nat) (items : list hash_item)
  : result (list hash_item * list hash_item) :=
  match items with
  | [] => Ok ([], [])
  | (key, value, s) :: rest =>
      side <- key_side key depth ;;
      '(left_items, right_items) <- hash_partition depth rest ;;
      if side then Ok ((key, value, s) :: left_items, right_items)
      else Ok (left_items, (key, value, s) :: right_items)
  end.

Variable hash_func : list byte -> list byte.
Variable sum_serialize_func : Sum -> result (list byte).
Variable sum_func : Sum -> Sum -> Sum.
Variable empty_sum : Sum.

(** [calc_summed_merbinner_hash(items, ..., _depth)], [fuel] bounding the
    recursion depth. *)
Fixpoint calc_summed_merbinner_hash_rec (fuel : nat) (items : list hash_item)
  (depth : nat) {struct fuel} : result (list byte * Sum) :=
  match items with
  | [] => Ok (hash_func [x00], empty_sum)
  | [(k, v, s)] =>
      ss <- sum_serialize_func s ;;
      Ok (hash_func ([x01] ++ k ++ v ++ ss), s)
  | _ =>
      '(left_items, right_items) <- hash_partition depth items ;;
      match fuel with
      | O => Err OutOfFuel
      | S fuel' =>
          '(left_hash, left_sum) <- calc_summed_merbinner_hash_rec fuel' left_items (S depth) ;;
          '(right_hash, right_sum) <- calc_summed_merbinner_hash_rec fuel' right_items (S depth) ;;
          ls <- sum_serialize_func left_sum ;;
          rs <- sum_serialize_func right_sum ;;
          Ok (hash_func ([x02] ++ left_hash ++ ls ++ right_hash ++ rs),
              sum_func left_sum right_sum)
      end
  end.

Definition calc_summed_merbinner_hash (items : list hash_item) : result (list byte * Sum) :=
  calc_summed_merbinner_hash_rec (8 * max_key_len hash_item_key items) items 0.

End Standalone.

(** [calc_merbinner_hash(items, hash_func)]: sums all 0, serialized as no
    bytes, default [sum_func] and [empty_sum]. *)
Definition calc_merbinner_hash (hash_func : list byte -> list byte)
  (items : list (list byte * list byte)) : result (list byte) :=
  '(h, _) <- calc_summed_merbinner_hash hash_func (fun _ : N => Ok []) N.add 0%N
               (map (fun '(k, v) => (k, v, 0%N)) items) ;;
  Ok h.

(** ** The tree classes of the test-suite (test/test_merbinnertree.py) *)

(** [struct.Struct('>H')]: pack and unpack of a big-endian 16-bit word. *)
Definition struct_pack_H (s : N) : result (list byte) :=
  if (s <? 65536)%N then Ok [byte_of (s / 256); byte_of (s mod 256)]
  else Err StructError.

Definition struct_unpack_H (b : list byte) : result N :=
  match b with
  | [hi; lo] => Ok (Byte.to_N hi * 256 + Byte.to_N lo)%N
  | _ => Err StructError
  end.

(** [BytesBytesMerbinnerTree]: 4-byte keys and values written raw, the
    key and value are their own hashes, no sums (the base-class sum
    policy: [sum_serialize] writes nothing, [value_getsum] is 0). *)
Definition BytesBytesMerbinnerTree : MerbinnerClass (list byte) N := {|
  HASH_HMAC_KEY := bs [0x92; 0xe8; 0x89; 0x8f; 0xcf; 0xa8; 0xb8; 0x6b;
                       0x60; 0xb3; 0x22; 0x36; 0xd6; 0x99; 0x0d; 0xa0]%N;
  SUM_IDENTITY := 0%N;
  key_serialize := fun _ key => write_bytes key (Some 4);
  key_deserialize := read_bytes (Some 4);
  value_serialize := fun _ value => write_bytes value (Some 4);
  value_deserialize := read_bytes (Some 4);
  sum_serialize := fun _ _ => Ok [];
  key_gethash := fun key => key;
  value_gethash := fun value => value;
  value_getsum := fun _ => Ok 0%N;
  sum_func := N.add
|}.

(** [SummedBytesBytesMerbinnerTree]: 6-byte values whose last two bytes
    are the sum; sums are written as [>H]. *)
Definition SummedBytesBytesMerbinnerTree : MerbinnerClass (list byte) N := {|
  HASH_HMAC_KEY := bs [0xe6; 0x30; 0xf7; 0xa3; 0xa7; 0x84; 0xd5; 0x21;
                       0x53; 0x37; 0x72; 0xd4; 0x3c; 0x88; 0x74; 0xc6]%N;
  SUM_IDENTITY := 0%N;
  key_serialize := fun _ key => write_bytes key (Some 4);
  key_deserialize := read_bytes (Some 4);
  value_serialize := fun _ value => write_bytes value (Some 6);
  value_deserialize := read_bytes (Some 6);
  sum_serialize := fun _ sum => p <- struct_pack_H sum ;; write_bytes p (Some 2);
  key_gethash := fun key => key;
  value_gethash := fun value => value;
  value_getsum := fun value => struct_unpack_H (skipn (length value - 2) value);
  sum_func := N.add
|}.

(** The two tree classes of the test suite. Their [key_gethash] is the
    key itself and their [sum_func] is integer addition, so neither
    raises. *)
Definition test_tree_classes : list (MerbinnerClass (list byte) N) :=
  [BytesBytesMerbinnerTree; SummedBytesBytesMerbinnerTree].

(** A subclass of [BytesBytesMerbinnerTree] whose key hash is not the key
    itself: [key_gethash = lambda self, key: bytes(b ^ 0xff for b in key)]. *)
Definition ComplementKeyMerbinnerTree : MerbinnerClass (list byte) N := {|
  HASH_HMAC_KEY := HASH_HMAC_KEY BytesBytesMerbinnerTree;
  SUM_IDENTITY := 0%N;
  key_serialize := fun _ key => write_bytes key (Some 4);
  key_deserialize := read_bytes (Some 4);
  value_serialize := fun _ value => write_bytes value (Some 4);
  value_deserialize := read_bytes (Some 4);
  sum_serialize := fun _ _ => Ok [];
  key_gethash := map (fun b => byte_of (N.lxor (Byte.to_N b) 255));
  value_gethash := fun value => value;
  value_getsum := fun _ => Ok 0%N;
  sum_func := N.add
|}.

(** A stand-in for HMAC-SHA256 with its digest length, to run the
    definitions on concrete inputs. *)
Definition zero_digest (key msg : list byte) : list byte := repeat x00 32.

(** ** Attribute assignment on proof objects

    [o.name = v] and [del o.name] run the [__setattr__] / [__delattr__]
    found first on the class's MRO. The classes of the repository: *)

Inductive pyclass : Type :=
  | PyObject
  | PyDict
  | ImmutableProofCls
  | MerbinnerTreeCls
  | BytesBytesMerbinnerTreeCls
  | SummedBytesBytesMerbinnerTreeCls
  | boxed_varuint
  | boxed_bytes
  | boxed_objs.

Definition mro (c : pyclass) : list pyclass :=
  match c with
  | PyObject => [PyObject]
  | PyDict => [PyDict; PyObject]
  | ImmutableProofCls => [ImmutableProofCls; PyObject]
  | MerbinnerTreeCls => [MerbinnerTreeCls; ImmutableProofCls; PyDict; PyObject]
  | BytesBytesMerbinnerTreeCls =>
      [BytesBytesMerbinnerTreeCls; MerbinnerTreeCls; ImmutableProofCls; PyDict; PyObject]
  | SummedBytesBytesMerbinnerTreeCls =>
      [SummedBytesBytesMerbinnerTreeCls; BytesBytesMerbinnerTreeCls; MerbinnerTreeCls;
       ImmutableProofCls; PyDict; PyObject]
  | boxed_varuint => [boxed_varuint; ImmutableProofCls; PyObject]
  | boxed_bytes => [boxed_bytes; ImmutableProofCls; PyObject]
  | boxed_objs => [boxed_objs; ImmutableProofCls; PyObject]
  end.

Definition pyclass_eqb (a b : pyclass) : bool :=
  match a, b with
  | PyObject, PyObject | PyDict, PyDict | ImmutableProofCls, ImmutableProofCls
  | MerbinnerTreeCls, MerbinnerTreeCls
  | BytesBytesMerbinnerTreeCls, BytesBytesMerbinnerTreeCls
  | SummedBytesBytesMerbinnerTreeCls, SummedBytesBytesMerbinnerTreeCls
  | boxed_varuint, boxed_varuint | boxed_bytes, boxed_bytes
  | boxed_objs, boxed_objs => true
  | _, _ => false
  end.

Definition is_proof_class (c : pyclass) : bool :=
  existsb (pyclass_eqb ImmutableProofCls) (mro c).

Inductive attr_impl : Type :=
  | RaiseImmutable   (* ImmutableProof.__setattr__ / __delattr__ *)
  | GenericAttr.     (* object.__setattr__ / object.__delattr__ *)

(** Which classes define [__setattr__] and [__delattr__] themselves
    ([dict] and the subclasses do not). *)
Definition own_attr_impl (c : pyclass) : option attr_impl :=
  match c with
  | ImmutableProofCls => Some RaiseImmutable
  | PyObject => Some GenericAttr
  | _ => None
  end.

Fixpoint lookup_attr_impl (l : list pyclass) : attr_impl :=
  match l with
  | [] => GenericAttr
  | c :: l' => match own_attr_impl c with Some i => i | None => lookup_attr_impl l' end
  end.

Record pyobj (A : Type) : Type := {
  py_class : pyclass;
  py_attrs : list (String.string * A)
}.
Arguments py_class {A}.
Arguments py_attrs {A}.

Fixpoint attrs_set {A} (l : list (String.string * A)) (name : String.string) (v : A) : list (String.string * A) :=
  match l with
  | [] => [(name, v)]
  | (n, w) :: l' => if String.eqb n name then (n, v) :: l' else (n, w) :: attrs_set l' name v
  end.

(** [o.name = v] *)
Definition py_setattr {A} (o : pyobj A) (name : String.string) (v : A) : result (pyobj A) :=
  match lookup_attr_impl (mro (py_class o)) with
  | RaiseImmutable => Err ImmutableAttribute
  | GenericAttr => Ok {| py_class := py_class o; py_attrs := attrs_set (py_attrs o) name v |}
  end.

(** [del o.name] *)
Definition py_delattr {A} (o : pyobj A) (name : String.string) : result (pyobj A) :=
  match lookup_attr_impl (mro (py_class o)) with
  | RaiseImmutable => Err ImmutableAttribute
  | GenericAttr =>
      Ok {| py_class := py_class o;
            py_attrs := filter (fun p => negb (String.eqb (fst p) name)) (py_attrs o) |}
  end.

(** Attribute names used below. *)
Section AttrNames.
Local Open Scope string_scope.
Definition attr_i : String.string := "i".
Definition attr_buf : String.string := "buf".
Definition attr_type : String.string := "type".
Definition attr_key : String.string := "key".
Definition attr_value : String.string := "value".
End AttrNames.

(** ** A tree object with its hash cache ([ImmutableProof.hash]) *)

Section TreeObject.

Variable hmac : list byte -> list byte -> list byte.
Context {V Sum : Type}.
Variable cls : MerbinnerClass V Sum.

Record tree_obj : Type := {
  tree_entries : entries (V := V);
  cached_hash : option (list byte)   (* the [_cached_hash] attribute *)
}.

(** The [hash] property: the cached digest, else [calc_hash()] stored with
    [object.__setattr__]. *)
Definition hash_property (o : tree_obj) : result (list byte * tree_obj) :=
  match cached_hash o with
  | Some h => Ok (h, o)
  | None =>
      h <- calc_hash hmac cls (tree_entries o) ;;
      Ok (h, {| tree_entries := tree_entries o; cached_hash := Some h |})
  end.

(** [o[key] = value]: [dict.__setitem__], which [MerbinnerTree] does not
    override. *)
Definition tree_setitem (o : tree_obj) (key : list byte) (value : V) : result tree_obj :=
  Ok {| tree_entries := dict_setitem (tree_entries o) key value;
        cached_hash := cached_hash o |}.

(** [del d[key]] on the [dict] base: the entry goes, the others keep
    their order; a missing key raises [KeyError]. *)
Fixpoint dict_delitem (d : entries (V := V)) (key : list byte) : result (entries (V := V)) :=
  match d with
  | [] => Err KeyError
  | (k, v) :: d' =>
      if bytes_eqb k key then Ok d'
      else d'' <- dict_delitem d' key ;; Ok ((k, v) :: d'')
  end.

(** [del o[key]]: [dict.__delitem__], which [MerbinnerTree] does not
    override. *)
Definition tree_delitem (o : tree_obj) (key : list byte) : result tree_obj :=
  d <- dict_delitem (tree_entries o) key ;;
  Ok {| tree_entries := d; cached_hash := cached_hash o |}.

End TreeObject.

(** ** The JSON serialization context ([JsonSerializationContext])

    [ctx.pairs] is a [dict] from attribute names to values: integers for
    [write_varuint], hex strings for [write_bytes]. *)

Inductive json_value : Type :=
  | JInt (n : N)
  | JStr (s : String.string).

Definition json_pairs : Type := list (String.string * json_value).

(** [attr_name not in self.pairs] *)
Definition json_has (pairs : json_pairs) (attr_name : String.string) : bool :=
  existsb (fun kv => String.eqb (fst kv) attr_name) pairs.

(** [JsonSerializationContext.write_varuint]: the attribute is new. *)
Definition json_write_varuint (pairs : json_pairs) (attr_name : String.string) (value : N)
  : result json_pairs :=
  if json_has pairs attr_name then Err AssertionError
  else Ok (pairs ++ [(attr_name, JInt value)]).

Definition hex_digit (n : N) : Ascii.ascii :=
  Ascii.ascii_of_N (if (n <? 10)%N then 48 + n else 87 + n)%N.

(** [binascii.hexlify(value).decode('utf8')] *)
Fixpoint hexlify (value : list byte) : String.string :=
  match value with
  | [] => String.EmptyString
  | b :: rest =>
      String.String (hex_digit (Byte.to_N b / 16)) (String.String (hex_digit (Byte.to_N b mod 16))
        (hexlify rest))
  end.

(** [JsonSerializationContext.write_bytes]: [expected_length] is not
    checked. *)
Definition json_write_bytes (pairs : json_pairs) (attr_name : String.string) (value : list byte)
  (expected_length : option nat) : result json_pairs :=
  if json_has pairs attr_name then Err AssertionError
  else Ok (pairs ++ [(attr_name, JStr (hexlify value))]).

Section JsonTree.

Context {V Sum : Type}.
Variable cls : MerbinnerClass V Sum.
(** [self.key_serialize(ctx, key)] and [self.value_serialize(ctx, value)]
    on a JSON context. *)
Variable key_json_serialize : json_pairs -> list byte -> result json_pairs.
Variable value_json_serialize : json_pairs -> V -> result json_pairs.

(** [MerbinnerTree._ctx_serialize.recurse] on a [JsonSerializationContext]:
    every node writes to the one [pairs] dict of the context, and the
    context is no [HashSerializationContext], so [do_recurse] recurses
    into the same context. *)
Fixpoint json_tree_recurse (fuel : nat) (pairs : json_pairs) (items : list (tree_item (V := V) (Sum := Sum)))
  (depth : nat) {struct fuel} : result (json_pairs * Sum) :=
  match items with
  | [] =>
      pairs <- json_write_varuint pairs attr_type 0 ;;
      Ok (pairs, SUM_IDENTITY cls)
  | [(key, value, sum)] =>
      pairs <- json_write_varuint pairs attr_type 1 ;;
      pairs <- key_json_serialize pairs key ;;
      pairs <- value_json_serialize pairs value ;;
      Ok (pairs, sum)
  | _ =>
      pairs <- json_write_varuint pairs attr_type 2 ;;
      '(left_items, right_items) <- tree_partition cls depth items ;;
      match fuel with
      | O => Err OutOfFuel
      | S fuel' =>
          '(pairs, left_sum) <- json_tree_recurse fuel' pairs left_items (S depth) ;;
          '(pairs, right_sum) <- json_tree_recurse fuel' pairs right_items (S depth) ;;
          Ok (pairs, sum_func cls left_sum right_sum)
      end
  end.

(** [ImmutableProof.json_serialize()]: a fresh [JsonSerializationContext],
    [ctx_serialize], then [ctx.pairs]. *)
Definition json_serialize (self : entries (V := V)) : result json_pairs :=
  items <- tree_items cls self ;;
  '(pairs, final_sum) <- json_tree_recurse (tree_fuel self) [] items 0 ;;
  Ok pairs.

End JsonTree.

(** The JSON key and value methods of [BytesBytesMerbinnerTree]. *)
Definition bytesbytes_key_json (pairs : json_pairs) (key : list byte) : result json_pairs :=
  json_write_bytes pairs attr_key key (Some 4).

Definition bytesbytes_value_json (pairs : json_pairs) (value : list byte) : result json_pairs :=
  json_write_bytes pairs attr_value value (Some 4).

(** ** Auxiliary definitions used by the proofs *)

(** What the encoder needs of a byte below 128, as a boolean test. *)
Definition low_byte_ok (c : byte) : bool :=
  let x := Byte.to_N c in
  implb (x <? 128)%N
    ((Byte.to_N (byte_of x) =? x)%N
     && (N.land x 128 =? 0)%N
     && (N.land (N.lor x 128) 127 =? x)%N
     && negb (N.land (N.lor x 128) 128 =? 0)%N
     && (Byte.to_N (byte_of (N.lor x 128)) =? N.lor x 128)%N).

(** [max(1, ceil(bit_length(n) / 7))] *)
Definition varuint_len (n : N) : nat := Nat.max 1 ((N.to_nat (N.size n) + 6) / 7).

(** The byte at position [i] of an [len]-byte encoding of [n]. *)
Definition leb128_byte (n : N) (len i : nat) : byte :=
  byte_of (N.lor (N.land (N.shiftr n (N.of_nat (7 * i))) 127)
                 (if Nat.ltb (i + 1) len then 128 else 0)).

Section ProofDefs.

Context {V Sum : Type}.
Variable cls : MerbinnerClass V Sum.

(** Every item of [items] has a bit at [depth] ([key_side] does not raise). *)
Definition sides_defined (depth : nat) (items : list (tree_item (V := V) (Sum := Sum))) : Prop :=
  forall it, In it items -> exists b, key_side (item_key it) depth = Ok b.

(** No key of [items] is already in [d0]. *)
Definition fresh_for (items : list (tree_item (V := V) (Sum := Sum))) (d0 : entries (V := V)) : Prop :=
  forall it, In it items -> ~ In (item_key it) (map fst d0).

(** Decoding [out] followed by any [rest] into [d0] adds the entries of
    [leaves] in that order and leaves [rest] unread. *)
Definition decodes_to (out : list byte) (leaves : list (tree_item (V := V) (Sum := Sum))) : Prop :=
  forall dfuel d0 rest,
  length out < dfuel -> fresh_for leaves d0 ->
  deserialize_recurse cls dfuel d0 (out ++ rest) = Ok (d0 ++ map item_entry leaves, rest).

(** The (key hash, value hash, 0) item that [calc_merbinner_hash] builds
    from a [(key, value)] entry. *)
Definition unsummed_item (it : tree_item (V := V) (Sum := Sum)) : hash_item (Sum := N) :=
  let '(key, value, _) := it in (key_gethash cls key, value_gethash cls value, 0%N).

(** All keys of [items] take the same side at every depth below [depth]:
    they all sit in the same subtree of depth [depth]. *)
Definition agree_below (depth : nat) (items : list (tree_item (V := V) (Sum := Sum))) : Prop :=
  forall it1 it2, In it1 items -> In it2 items ->
  forall i, i < depth -> side_of i (item_key it1) = side_of i (item_key it2).

End ProofDefs.

(** A two-entry [BytesBytesMerbinnerTree] and its serialization. *)
Definition roundtrip_tree : entries (V := list byte) :=
  [(bs [0xff; 0xff; 0xff; 0xff]%N, bs [0xde; 0xad; 0xbe; 0xef]%N);
   (bs [0; 0; 0; 0]%N, bs [1; 2; 3; 4]%N)].

Definition roundtrip_bytes : list byte :=
  bs [2; 1; 0xff; 0xff; 0xff; 0xff; 0xde; 0xad; 0xbe; 0xef;
      1; 0; 0; 0; 0; 1; 2; 3; 4]%N.

(** * Properties *)

(** ** Byte-level facts, checked over all 256 bytes *)

Lemma bind_Ok {A B} (a : A) (k : A -> result B) : bind (Ok a) k = k a.
Proof. reflexivity. Qed.

Lemma low_byte_ok_all c : low_byte_ok c = true.
Proof. destruct c; vm_compute; reflexivity. Qed.

Lemma low_byte_facts x : (x < 128)%N ->
  Byte.to_N (byte_of x) = x /\ N.land x 128 = 0%N /\
  N.land (N.lor x 128) 127 = x /\ N.land (N.lor x 128) 128 <> 0%N /\
  Byte.to_N (byte_of (N.lor x 128)) = N.lor x 128.
Proof.
  intros Hx.
  destruct (Byte.of_N x) as [c|] eqn:Hc.
  - apply Byte.to_of_N in Hc. subst x.
    pose proof (low_byte_ok_all c) as H. unfold low_byte_ok in H.
    apply N.ltb_lt in Hx. rewrite Hx in H. simpl in H.
    repeat rewrite andb_true_iff in H.
    destruct H as [[[[H1 H2] H3] H4] H5].
    apply N.eqb_eq in H1, H2, H3, H5. apply negb_true_iff, N.eqb_neq in H4.
    tauto.
  - apply Byte.of_N_None_iff in Hc. lia.
Qed.

Lemma land127_lt x : (N.land x 127 < 128)%N.
Proof.
  change 127%N with (N.ones 7). rewrite N.land_ones.
  apply N.mod_lt. discriminate.
Qed.

Lemma land127_small x : (x <= 127)%N -> N.land x 127 = x.
Proof.
  intros H. change 127%N with (N.ones 7). rewrite N.land_ones.
  apply N.mod_small. change (2 ^ 7)%N with 128%N. lia.
Qed.

(** Splitting a number into its low 7 bits and the rest. *)
Lemma split7 n s :
  N.lor (N.shiftl (N.land n 127) s) (N.shiftl (N.shiftr n 7) (s + 7))
  = N.shiftl n s.
Proof.
  apply N.bits_inj. intros i. rewrite N.lor_spec.
  destruct (N.lt_ge_cases i s) as [Hi|Hi].
  - rewrite !N.shiftl_spec_low by lia. reflexivity.
  - rewrite (N.shiftl_spec_high _ s i) by lia.
    rewrite (N.shiftl_spec_high _ s i) by lia.
    rewrite N.land_spec. change 127%N with (N.ones 7).
    destruct (N.lt_ge_cases i (s + 7)) as [Hj|Hj].
    + rewrite N.ones_spec_low by lia. rewrite N.shiftl_spec_low by lia.
      rewrite andb_true_r, orb_false_r. reflexivity.
    + rewrite N.ones_spec_high by lia. rewrite N.shiftl_spec_high by lia.
      rewrite N.shiftr_spec'. rewrite andb_false_r. simpl.
      f_equal. lia.
Qed.

(** ** The LEB128 loop *)

Lemma size_small n : (0 < n)%N -> (n <= 127)%N -> (N.size n <= 7)%N.
Proof.
  intros H0 H1. rewrite N.size_log2 by lia.
  assert (N.log2 n < 7)%N.
  { apply N.log2_lt_pow2; [lia|]. change (2 ^ 7)%N with 128%N. lia. }
  lia.
Qed.

Lemma size_shiftr7 n : (127 < n)%N ->
  (0 < N.shiftr n 7)%N /\ N.size n = (N.size (N.shiftr n 7) + 7)%N.
Proof.
  intros H.
  assert (Hp : (0 < N.shiftr n 7)%N).
  { rewrite N.shiftr_div_pow2. apply N.div_str_pos.
    change (2 ^ 7)%N with 128%N. lia. }
  split; [exact Hp|].
  rewrite !N.size_log2 by lia. rewrite N.log2_shiftr.
  assert (7 <= N.log2 n)%N.
  { apply N.log2_le_pow2; [lia|]. change (2 ^ 7)%N with 128%N. lia. }
  lia.
Qed.

Lemma write_varuint_loop_spec f : forall n,
  (0 < n)%N -> (N.size n <= 7 * N.of_nat f)%N ->
  length (write_varuint_loop f n) = (N.to_nat (N.size n) + 6) / 7 /\
  (forall acc s rest,
      read_varuint_loop (write_varuint_loop f n ++ rest) acc s
      = Ok (N.lor acc (N.shiftl n s), rest)) /\
  (forall i, i < length (write_varuint_loop f n) ->
      nth_error (write_varuint_loop f n) i
      = Some (leb128_byte n (length (write_varuint_loop f n)) i)).
Proof.
  induction f as [|f IH]; intros n Hn Hs.
  { simpl in Hs. assert (N.size n <> 0)%N by (rewrite N.size_log2; lia). lia. }
  cbn [write_varuint_loop].
  replace (n =? 0)%N with false by (symmetry; apply N.eqb_neq; lia).
  destruct (N.leb_spec n 127) as [Hle|Hgt].
  - (* one byte *)
    replace (127 <? n)%N with false by (symmetry; apply N.ltb_ge; lia).
    rewrite land127_small by exact Hle.
    destruct (low_byte_facts n) as [E1 [E2 _]]; [lia|].
    assert (Hsz := size_small n Hn Hle).
    assert (Hsz' : N.to_nat (N.size n) <> 0).
    { rewrite N.size_log2 by lia. lia. }
    split; [|split].
    + cbn [length].
      apply (Nat.div_unique _ 7 1 (N.to_nat (N.size n) - 1)); lia.
    + intros acc s rest. simpl. rewrite E1, E2. simpl.
      rewrite land127_small by exact Hle. reflexivity.
    + intros i Hi. simpl in Hi. assert (i = 0) by lia. subst i.
      unfold leb128_byte. simpl. rewrite N.lor_0_r, land127_small by exact Hle.
      reflexivity.
  - (* a continuation byte, then the rest *)
    replace (127 <? n)%N with true by (symmetry; apply N.ltb_lt; lia).
    destruct (size_shiftr7 n Hgt) as [Hp Hsz].
    assert (Hs' : (N.size (N.shiftr n 7) <= 7 * N.of_nat f)%N) by lia.
    destruct (IH _ Hp Hs') as [L [R B]].
    destruct (low_byte_facts (N.land n 127) (land127_lt n)) as [_ [_ [F3 [F4 F5]]]].
    split; [|split].
    + cbn [length]. rewrite L, Hsz.
      rewrite N2Nat.inj_add. change (N.to_nat 7) with 7.
      replace (N.to_nat (N.size (N.shiftr n 7)) + 7 + 6)
        with (N.to_nat (N.size (N.shiftr n 7)) + 6 + 1 * 7) by lia.
      rewrite Nat.div_add by lia. lia.
    + intros acc s rest. cbn [app read_varuint_loop]. rewrite F5, F3.
      replace (N.land (N.lor (N.land n 127) 128) 128 =? 0)%N with false
        by (symmetry; apply N.eqb_neq; exact F4).
      rewrite R. f_equal. f_equal.
      rewrite <- N.lor_assoc, split7. reflexivity.
    + intros i Hi. destruct i as [|j].
      * cbn [nth_error]. unfold leb128_byte. simpl (N.shiftr n (N.of_nat (7 * 0))).
        cbn [length] in *.
        assert (Hl : 0 < length (write_varuint_loop f (N.shiftr n 7))).
        { rewrite L. apply Nat.div_str_pos.
          assert (N.size (N.shiftr n 7) <> 0)%N by (rewrite N.size_log2; lia). lia. }
        replace (Nat.ltb (0 + 1) (S (length (write_varuint_loop f (N.shiftr n 7)))))
          with true by (symmetry; apply Nat.ltb_lt; lia).
        reflexivity.
      * cbn [nth_error length] in *. rewrite B by lia. unfold leb128_byte.
        rewrite N.shiftr_shiftr.
        replace (7 + N.of_nat (7 * j))%N with (N.of_nat (7 * S j)) by lia.
        replace (Nat.ltb (S j + 1) (S (length (write_varuint_loop f (N.shiftr n 7)))))
          with (Nat.ltb (j + 1) (length (write_varuint_loop f (N.shiftr n 7)))).
        { reflexivity. }
        destruct (Nat.ltb_spec (j + 1) (length (write_varuint_loop f (N.shiftr n 7))));
          destruct (Nat.ltb_spec (S j + 1) (S (length (write_varuint_loop f (N.shiftr n 7)))));
          lia.
Qed.

(** ** Claim C4: varuint canonicality *)

(** C4. For every non-negative integer [n], [write_varuint] emits exactly
    [max(1, ceil(bit_length(n)/7))] bytes of unsigned LEB128 (byte [i] holds
    bits [7i .. 7i+6] of [n], with the high bit set iff a byte follows),
    [read_varuint] returns [n] from that encoding (whatever follows it in
    the stream), and the vectors 0 -> 00, 1 -> 01, 2^32 -> 80 80 80 80 10
    hold. *)
Theorem varuint_canonical (n : N) :
  length (write_varuint n) = varuint_len n /\
  (forall i, i < length (write_varuint n) ->
     nth_error (write_varuint n) i = Some (leb128_byte n (length (write_varuint n)) i)) /\
  (forall rest, read_varuint (write_varuint n ++ rest) = Ok (n, rest)) /\
  write_varuint 0 = [x00] /\
  write_varuint 1 = [x01] /\
  write_varuint (2 ^ 32) = [x80; x80; x80; x80; x10].
Proof.
  split; [|split; [|split; [|split; [|split]]]]; try reflexivity.
  - unfold write_varuint, varuint_len. destruct (N.eqb_spec n 0) as [->|Hn].
    + reflexivity.
    + destruct (write_varuint_loop_spec (N.to_nat (N.size n)) n) as [L _]; [lia|lia|].
      rewrite L. assert (N.size n <> 0)%N by (rewrite N.size_log2; lia).
      assert (1 <= (N.to_nat (N.size n) + 6) / 7).
      { apply (Nat.div_le_lower_bound _ 7 1); lia. }
      lia.
  - unfold write_varuint. destruct (N.eqb_spec n 0) as [->|Hn].
    + intros i Hi. simpl in Hi. assert (i = 0) by lia. subst. reflexivity.
    + destruct (write_varuint_loop_spec (N.to_nat (N.size n)) n) as [_ [_ B]]; [lia|lia|].
      exact B.
  - intros rest. unfold write_varuint, read_varuint. destruct (N.eqb_spec n 0) as [->|Hn].
    + reflexivity.
    + destruct (write_varuint_loop_spec (N.to_nat (N.size n)) n) as [_ [R _]]; [lia|lia|].
      rewrite R. rewrite N.lor_0_l, N.shiftl_0_r. reflexivity.
Qed.

(** ** Helper facts for the tree *)

Lemma side_bit x n : negb (N.land (N.shiftr x n) 1 =? 0)%N = N.testbit x n.
Proof.
  rewrite <- (N.add_0_l n) at 2. rewrite <- N.shiftr_spec'.
  set (y := N.shiftr x n).
  change 1%N with (N.ones 1) at 1. rewrite N.land_ones, N.bit0_eqb.
  change (2 ^ 1)%N with 2%N.
  pose proof (N.mod_lt y 2 ltac:(discriminate)) as Hm.
  destruct (y mod 2)%N as [|p]; [reflexivity|].
  destruct p; try reflexivity; lia.
Qed.

Lemma key_side_spec key depth b :
  nth_error key (depth / 8) = Some b ->
  key_side key depth = Ok (N.testbit (Byte.to_N b) (N.of_nat (7 - depth mod 8))).
Proof. intros H. unfold key_side. rewrite H, side_bit. reflexivity. Qed.

Lemma key_side_top b key : key_side (b :: key) 0 = Ok (N.testbit (Byte.to_N b) 7).
Proof. apply (key_side_spec (b :: key) 0 b). reflexivity. Qed.

Lemma write_bytes_fixed v l : length v = l -> write_bytes v (Some l) = Ok v.
Proof. intros <-. unfold write_bytes. rewrite Nat.eqb_refl. reflexivity. Qed.

Lemma length3 {A} (l : list A) : length l = 3 -> exists a b c, l = [a; b; c].
Proof.
  destruct l as [|a [|b [|c [|d l]]]]; simpl; try discriminate.
  intros _. exists a, b, c. reflexivity.
Qed.

Lemma length4 {A} (l : list A) : length l = 4 -> exists a b c d, l = [a; b; c; d].
Proof.
  destruct l as [|a [|b [|c [|d [|e l]]]]]; simpl; try discriminate.
  intros _. exists a, b, c, d. reflexivity.
Qed.

(** Equations of [recurse] for its three kinds of node. *)
Lemma tree_recurse_empty hmac {V Sum} (cls : MerbinnerClass V Sum) fuel ctx depth :
  tree_recurse hmac cls fuel ctx [] depth = Ok (write_varuint 0, SUM_IDENTITY cls).
Proof. destruct fuel; reflexivity. Qed.

Lemma tree_recurse_leaf hmac {V Sum} (cls : MerbinnerClass V Sum) fuel ctx key value sum depth :
  tree_recurse hmac cls fuel ctx [(key, value, sum)] depth
  = (k <- key_serialize cls ctx key ;;
     v <- value_serialize cls ctx value ;;
     Ok (write_varuint 1 ++ k ++ v, sum)).
Proof. destruct fuel; reflexivity. Qed.

Lemma tree_recurse_inner hmac {V Sum} (cls : MerbinnerClass V Sum) fuel ctx items depth :
  2 <= length items ->
  tree_recurse hmac cls (S fuel) ctx items depth
  = ('(left_items, right_items) <- tree_partition cls depth items ;;
     '(l, left_sum) <- tree_do_recurse hmac cls fuel ctx left_items depth ;;
     '(r, right_sum) <- tree_do_recurse hmac cls fuel ctx right_items depth ;;
     Ok (write_varuint 2 ++ l ++ r, sum_func cls left_sum right_sum)).
Proof.
  intros H. destruct items as [|[[k v] s] [|it items]]; simpl in H; try lia.
  destruct ctx; reflexivity.
Qed.

Lemma hash_rec_empty {Sum} hf ssf (sf : Sum -> Sum -> Sum) e fuel depth :
  calc_summed_merbinner_hash_rec hf ssf sf e fuel [] depth = Ok (hf [x00], e).
Proof. destruct fuel; reflexivity. Qed.

Lemma hash_rec_leaf {Sum} hf ssf (sf : Sum -> Sum -> Sum) e fuel k v s depth :
  calc_summed_merbinner_hash_rec hf ssf sf e fuel [(k, v, s)] depth
  = (ss <- ssf s ;; Ok (hf ([x01] ++ k ++ v ++ ss), s)).
Proof. destruct fuel; reflexivity. Qed.

Lemma hash_rec_inner {Sum} hf ssf (sf : Sum -> Sum -> Sum) e fuel items depth :
  2 <= length items ->
  calc_summed_merbinner_hash_rec hf ssf sf e (S fuel) items depth
  = ('(left_items, right_items) <- hash_partition depth items ;;
     '(left_hash, left_sum) <- calc_summed_merbinner_hash_rec hf ssf sf e fuel left_items (S depth) ;;
     '(right_hash, right_sum) <- calc_summed_merbinner_hash_rec hf ssf sf e fuel right_items (S depth) ;;
     ls <- ssf left_sum ;;
     rs <- ssf right_sum ;;
     Ok (hf ([x02] ++ left_hash ++ ls ++ right_hash ++ rs), sf left_sum right_sum)).
Proof.
  intros H. destruct items as [|[[k v] s] [|it items]]; simpl in H; try lia.
  reflexivity.
Qed.

(** ** Claim C5: concrete hash vectors of [BytesBytesMerbinnerTree] *)

(** C5. With the test key and 4-byte raw keys and values (the key is its own
    hash, no sum bytes): the empty tree hashes to [HMAC(key, 00)]; the tree
    [{ffffffff: deadbeef}] to [HMAC(key, 01 ffffffff deadbeef)]; a tree of
    two entries whose keys differ in the top bit to
    [HMAC(key, 02 || H(leaf_a) || H(leaf_b))], where [leaf_a] is the entry
    whose top key bit is 1, whatever the order of the entries in the dict. *)
Theorem bytesbytes_hash_vectors (hmac : list byte -> list byte -> list byte)
  (Hlen : forall k m, length (hmac k m) = 32) :
  let H := hmac (HASH_HMAC_KEY BytesBytesMerbinnerTree) in
  calc_hash hmac BytesBytesMerbinnerTree [] = Ok (H [x00]) /\
  calc_hash hmac BytesBytesMerbinnerTree
    [(bs [0xff; 0xff; 0xff; 0xff]%N, bs [0xde; 0xad; 0xbe; 0xef]%N)]
  = Ok (H (bs [0x01; 0xff; 0xff; 0xff; 0xff; 0xde; 0xad; 0xbe; 0xef]%N)) /\
  (forall ka va kb vb a0 b0 ra rb,
     ka = a0 :: ra -> kb = b0 :: rb ->
     length ka = 4 -> length kb = 4 -> length va = 4 -> length vb = 4 ->
     N.testbit (Byte.to_N a0) 7 = true -> N.testbit (Byte.to_N b0) 7 = false ->
     let leaf_a := [x01] ++ ka ++ va in
     let leaf_b := [x01] ++ kb ++ vb in
     calc_hash hmac BytesBytesMerbinnerTree [(ka, va); (kb, vb)]
     = Ok (H ([x02] ++ H leaf_a ++ H leaf_b)) /\
     calc_hash hmac BytesBytesMerbinnerTree [(kb, vb); (ka, va)]
     = Ok (H ([x02] ++ H leaf_a ++ H leaf_b))).
Proof.
  intros H. split; [reflexivity|split; [reflexivity|]].
  intros ka va kb vb a0 b0 ra rb -> -> Hka Hkb Hva Hvb Ha Hb leaf_a leaf_b.
  simpl in Hka, Hkb. injection Hka as Hka. injection Hkb as Hkb.
  destruct (length3 ra Hka) as [a1 [a2 [a3 ->]]].
  destruct (length3 rb Hkb) as [b1 [b2 [b3 ->]]].
  destruct (length4 va Hva) as [v1 [v2 [v3 [v4 ->]]]].
  destruct (length4 vb Hvb) as [w1 [w2 [w3 [w4 ->]]]].
  split; unfold calc_hash, ctx_serialize, tree_fuel;
    cbn [tree_items max_key_len fold_right BytesBytesMerbinnerTree value_getsum bind fst length];
    change (8 * Nat.max 4 (Nat.max 4 0)) with (S 31);
    rewrite tree_recurse_inner by (simpl; lia);
    cbn [tree_partition]; rewrite !key_side_top, Ha, Hb;
    cbn [bind tree_do_recurse]; rewrite !tree_recurse_leaf;
    cbn [BytesBytesMerbinnerTree key_serialize value_serialize bind write_bytes length Nat.eqb];
    rewrite !Hlen; cbn [Nat.eqb bind sum_serialize BytesBytesMerbinnerTree];
    rewrite !app_nil_r; reflexivity.
Qed.

(** Witness of [bytesbytes_hash_vectors]: an HMAC with 32-byte digests. *)
Lemma bytesbytes_hash_vectors_witness :
  (forall k m, length (zero_digest k m) = 32) /\
  calc_hash zero_digest BytesBytesMerbinnerTree []
  = Ok (zero_digest (HASH_HMAC_KEY BytesBytesMerbinnerTree) [x00]).
Proof.
  split.
  - intros k m. reflexivity.
  - exact (proj1 (bytesbytes_hash_vectors zero_digest (fun _ _ => eq_refl))).
Defined.

(** ** Claim C3: what a leaf writes *)

(** C3 (as the code has it). A leaf node writes the tag 1, the key's
    encoding and the value's encoding, in a plain and in a hashing context
    alike; the leaf's sum is returned, not written. Under a hashing context
    an inner node writes, for each side, the 32-byte HMAC of the side's
    stream followed by the side's serialized sum. So a single-entry tree
    hashes to [HMAC(key, 01 || key encoding || value encoding)]. *)
Theorem leaf_node_stream hmac {V Sum} (cls : MerbinnerClass V Sum) :
  (forall fuel ctx key value sum depth,
     tree_recurse hmac cls fuel ctx [(key, value, sum)] depth
     = (k <- key_serialize cls ctx key ;;
        v <- value_serialize cls ctx value ;;
        Ok ([x01] ++ k ++ v, sum))) /\
  (forall key value k v s,
     key_serialize cls HashCtx key = Ok k ->
     value_serialize cls HashCtx value = Ok v ->
     value_getsum cls value = Ok s ->
     ctx_serialize hmac cls HashCtx [(key, value)] = Ok ([x01] ++ k ++ v) /\
     calc_hash hmac cls [(key, value)] = Ok (hmac (HASH_HMAC_KEY cls) ([x01] ++ k ++ v))) /\
  (forall fuel its depth sub sum sb,
     tree_recurse hmac cls fuel HashCtx its (S depth) = Ok (sub, sum) ->
     length (hmac (HASH_HMAC_KEY cls) sub) = 32 ->
     sum_serialize cls HashCtx sum = Ok sb ->
     tree_do_recurse hmac cls fuel HashCtx its depth
     = Ok (hmac (HASH_HMAC_KEY cls) sub ++ sb, sum)).
Proof.
  split; [|split].
  - intros. apply tree_recurse_leaf.
  - intros key value k v s Hk Hv Hs.
    unfold calc_hash, ctx_serialize. cbn [tree_items]. rewrite Hs. cbn [bind].
    rewrite tree_recurse_leaf, Hk, Hv. cbn [bind]. split; reflexivity.
  - intros fuel its depth sub sum sb Hr Hl Hsb. unfold tree_do_recurse.
    rewrite Hr. cbn [bind]. rewrite write_bytes_fixed by exact Hl.
    cbn [bind]. rewrite Hsb. reflexivity.
Qed.

(** The single-entry [SummedBytesBytesMerbinnerTree] of the tests: under the
    hashing context the stream stops after the value; the sum 1 ([00 01])
    is not written after it. *)
Lemma summed_leaf_sum_not_written :
  value_getsum SummedBytesBytesMerbinnerTree (bs [0xde; 0xad; 0xbe; 0xef; 0x00; 0x01]%N) = Ok 1%N /\
  sum_serialize SummedBytesBytesMerbinnerTree HashCtx 1%N = Ok (bs [0x00; 0x01]%N) /\
  ctx_serialize zero_digest SummedBytesBytesMerbinnerTree HashCtx
    [(bs [0xff; 0xff; 0xff; 0xff]%N, bs [0xde; 0xad; 0xbe; 0xef; 0x00; 0x01]%N)]
  = Ok (bs [0x01; 0xff; 0xff; 0xff; 0xff; 0xde; 0xad; 0xbe; 0xef; 0x00; 0x01]%N) /\
  bs [0x01; 0xff; 0xff; 0xff; 0xff; 0xde; 0xad; 0xbe; 0xef; 0x00; 0x01]%N
  <> bs [0x01; 0xff; 0xff; 0xff; 0xff; 0xde; 0xad; 0xbe; 0xef; 0x00; 0x01]%N
     ++ bs [0x00; 0x01]%N.
Proof.
  split; [reflexivity|split; [reflexivity|split; [vm_compute; reflexivity|]]].
  intros H. apply (f_equal (@length byte)) in H. discriminate H.
Qed.

(** ** Claim C1: the tree's hash against the standalone algorithm *)

(** C1 at the test-suite's single-entry summed tree [{ffffffff: deadbeef0001}]
    (sum 1), for every HMAC: the tree hashes [01 || key || value], the
    standalone algorithm, given the same key, value, sum and [>H] sum
    serialization, hashes [01 || key || value || 00 01]. *)
Theorem summed_leaf_hash_mismatch (hmac : list byte -> list byte -> list byte) :
  let K := HASH_HMAC_KEY SummedBytesBytesMerbinnerTree in
  let key := bs [0xff; 0xff; 0xff; 0xff]%N in
  let value := bs [0xde; 0xad; 0xbe; 0xef; 0x00; 0x01]%N in
  value_getsum SummedBytesBytesMerbinnerTree value = Ok 1%N /\
  (forall s, sum_serialize SummedBytesBytesMerbinnerTree HashCtx s = struct_pack_H s) /\
  calc_hash hmac SummedBytesBytesMerbinnerTree [(key, value)]
  = Ok (hmac K (bs [0x01; 0xff; 0xff; 0xff; 0xff; 0xde; 0xad; 0xbe; 0xef; 0x00; 0x01]%N)) /\
  calc_summed_merbinner_hash (hmac K) struct_pack_H N.add 0%N
    [(key_gethash SummedBytesBytesMerbinnerTree key,
      value_gethash SummedBytesBytesMerbinnerTree value, 1%N)]
  = Ok (hmac K (bs [0x01; 0xff; 0xff; 0xff; 0xff; 0xde; 0xad; 0xbe; 0xef; 0x00; 0x01;
                    0x00; 0x01]%N), 1%N) /\
  bs [0x01; 0xff; 0xff; 0xff; 0xff; 0xde; 0xad; 0xbe; 0xef; 0x00; 0x01]%N
  <> bs [0x01; 0xff; 0xff; 0xff; 0xff; 0xde; 0xad; 0xbe; 0xef; 0x00; 0x01; 0x00; 0x01]%N.
Proof.
  intros K key value.
  split; [reflexivity|split; [|split; [reflexivity|split; [reflexivity|]]]].
  - intros s. cbn [SummedBytesBytesMerbinnerTree sum_serialize].
    unfold struct_pack_H. destruct (s <? 65536)%N; reflexivity.
  - discriminate.
Qed.

(** ** Claim C2: the partition rule *)

(** C2 at a tree whose key hash is the bitwise complement of the key: the
    tree's partition at depth 0 sends the key [80000000] (key hash
    [7fffffff], top bit 0) to the left and [00000000] (key hash [ffffffff],
    top bit 1) to the right; the rule on key hashes, as the standalone
    algorithm applies it to the same entries' hashes, does the opposite. *)
Theorem tree_partition_reads_raw_key :
  let cls := ComplementKeyMerbinnerTree in
  let ka := bs [0x80; 0; 0; 0]%N in
  let kb := bs [0; 0; 0; 0]%N in
  let v := bs [0; 0; 0; 0]%N in
  key_gethash cls ka = bs [0x7f; 0xff; 0xff; 0xff]%N /\
  key_gethash cls kb = bs [0xff; 0xff; 0xff; 0xff]%N /\
  tree_partition cls 0 [(ka, v, 0%N); (kb, v, 0%N)]
  = Ok ([(ka, v, 0%N)], [(kb, v, 0%N)]) /\
  hash_partition 0 [(key_gethash cls ka, v, 0%N); (key_gethash cls kb, v, 0%N)]
  = Ok ([(key_gethash cls kb, v, 0%N)], [(key_gethash cls ka, v, 0%N)]).
Proof. vm_compute. repeat split. Qed.

(** ** Claim C7: node tags on decode *)

(** C7. Decoding a node reads the tag varuint; tag 0 adds nothing, tag 1
    decodes a key and a value and stores them, tag 2 decodes the left
    then the right subtree, and any other tag raises (the error is the
    result of the whole decode: no value is returned). *)
Theorem decode_node_tags {V Sum} (cls : MerbinnerClass V Sum) fuel self inp n rest
  (Hread : read_varuint inp = Ok (n, rest)) :
  (n = 0%N -> deserialize_recurse cls (S fuel) self inp = Ok (self, rest)) /\
  (n = 1%N -> deserialize_recurse cls (S fuel) self inp
              = ('(key, inp1) <- key_deserialize cls rest ;;
                 '(value, inp2) <- value_deserialize cls inp1 ;;
                 Ok (dict_setitem self key value, inp2))) /\
  (n = 2%N -> deserialize_recurse cls (S fuel) self inp
              = ('(self1, inp1) <- deserialize_recurse cls fuel self rest ;;
                 deserialize_recurse cls fuel self1 inp1)) /\
  (n <> 0%N -> n <> 1%N -> n <> 2%N ->
     deserialize_recurse cls (S fuel) self inp = Err (UnsupportedNodeType n)) /\
  (forall buf e, ctx_deserialize cls buf = Err e -> deserialize cls buf = Err e).
Proof.
  cbn [deserialize_recurse]. rewrite Hread. cbn [bind].
  split; [|split; [|split; [|split]]].
  - intros ->. reflexivity.
  - intros ->. reflexivity.
  - intros ->. reflexivity.
  - intros H0 H1 H2.
    apply N.eqb_neq in H0, H1, H2. rewrite H0, H1, H2. reflexivity.
  - intros buf e H. unfold deserialize. rewrite H. reflexivity.
Qed.

(** Witness of [decode_node_tags]: the stream [03]. *)
Lemma decode_node_tags_witness :
  read_varuint (bs [3]%N) = Ok (3%N, []) /\
  deserialize_recurse BytesBytesMerbinnerTree 1 [] (bs [3]%N) = Err (UnsupportedNodeType 3).
Proof.
  split; [reflexivity|].
  refine (proj1 (proj2 (proj2 (proj2
    (decode_node_tags BytesBytesMerbinnerTree 0 [] (bs [3]%N) 3%N [] eq_refl)))) _ _ _);
    discriminate.
Defined.

(** ** Claim C8: attributes of proof objects cannot be set or deleted *)

(** C8. For every object of a class deriving from [ImmutableProof], every
    attribute name and every value, [o.name = v] and [del o.name] raise the
    immutability error. *)
Theorem immutable_attributes {A} (o : pyobj A) (name : String.string) (v : A) :
  is_proof_class (py_class o) = true ->
  py_setattr o name v = Err ImmutableAttribute /\
  py_delattr o name = Err ImmutableAttribute.
Proof.
  destruct o as [c attrs]. unfold py_setattr, py_delattr. cbn [py_class].
  destruct c; cbn; intros H; try discriminate H; split; reflexivity.
Qed.

(** Witness of [immutable_attributes]: a merbinner tree object. *)
Lemma immutable_attributes_witness :
  is_proof_class MerbinnerTreeCls = true /\
  py_setattr {| py_class := MerbinnerTreeCls; py_attrs := [] |} attr_i 0
  = Err ImmutableAttribute.
Proof.
  split; [reflexivity|].
  exact (proj1 (immutable_attributes {| py_class := MerbinnerTreeCls; py_attrs := [] |}
                  attr_i 0 eq_refl)).
Defined.

(** ** Claim C9: the mapping of a tree is not sealed *)

Lemma dict_setitem_absent {V} (d : entries (V := V)) key value :
  ~ In key (map fst d) -> dict_setitem d key value = d ++ [(key, value)].
Proof.
  induction d as [|[k v] d IH]; cbn; intros Hn; [reflexivity|].
  unfold bytes_eqb. destruct (list_eq_dec Byte.byte_eq_dec k key) as [->|_].
  - exfalso. apply Hn. left. reflexivity.
  - rewrite IH by (intros Hin; apply Hn; right; exact Hin). reflexivity.
Qed.

Lemma dict_delitem_in {V} (d : entries (V := V)) key :
  In key (map fst d) ->
  exists d1 v d2, d = d1 ++ (key, v) :: d2 /\ dict_delitem d key = Ok (d1 ++ d2).
Proof.
  induction d as [|[k v] d IH]; cbn; intros Hin; [contradiction|].
  unfold bytes_eqb. destruct (list_eq_dec Byte.byte_eq_dec k key) as [->|Hne].
  - exists [], v, d. split; reflexivity.
  - destruct Hin as [Hk|Hin]; [contradiction|].
    destruct (IH Hin) as [d1 [v' [d2 [-> E]]]].
    exists ((k, v) :: d1), v', d2. split; [reflexivity|].
    rewrite E. reflexivity.
Qed.

(** C9. The attribute guard does not cover the dict entries. Setting an
    attribute of a tree raises; but for every tree object whose hash has
    been computed and cached, inserting a new key (it goes last),
    overwriting a key, or deleting a key present in it succeeds through
    the [dict] methods, and [t.hash] then returns the cached digest
    unchanged. On concrete trees the cached digest is an HMAC over another
    stream than the one the new mapping hashes: inserting [ffffffff] into
    the hashed empty tree, overwriting [ffffffff] in
    [{ffffffff: deadbeef}], and deleting it from that tree. The decoder
    itself fills a tree by item assignment. *)
Theorem tree_entries_mutable_hash_stale (hmac : list byte -> list byte -> list byte) :
  py_setattr {| py_class := BytesBytesMerbinnerTreeCls; py_attrs := [] |} attr_buf
    (bs [0xca; 0xfe; 0xba; 0xbe]%N)
  = Err ImmutableAttribute /\
  (forall {V Sum} (cls : MerbinnerClass V Sum) (t : tree_obj (V := V)) h key value,
     cached_hash t = Some h ->
     exists t', tree_setitem t key value = Ok t' /\
       tree_entries t' = dict_setitem (tree_entries t) key value /\
       (~ In key (map fst (tree_entries t)) -> tree_entries t' = tree_entries t ++ [(key, value)]) /\
       hash_property hmac cls t' = Ok (h, t')) /\
  (forall {V Sum} (cls : MerbinnerClass V Sum) (t : tree_obj (V := V)) h key,
     cached_hash t = Some h -> In key (map fst (tree_entries t)) ->
     exists t', tree_delitem t key = Ok t' /\
       (exists d1 value d2, tree_entries t = d1 ++ (key, value) :: d2 /\
                            tree_entries t' = d1 ++ d2) /\
       hash_property hmac cls t' = Ok (h, t')) /\
  (let cls := BytesBytesMerbinnerTree in
   let K := HASH_HMAC_KEY cls in
   let key := bs [0xff; 0xff; 0xff; 0xff]%N in
   let v0 := bs [0xde; 0xad; 0xbe; 0xef]%N in
   let v1 := bs [0xca; 0xfe; 0xba; 0xbe]%N in
   let m_empty := [x00] in
   let m0 := [x01] ++ key ++ v0 in
   let m1 := [x01] ++ key ++ v1 in
   let e0 := {| tree_entries := []; cached_hash := None |} in
   let t0 := {| tree_entries := [(key, v0)]; cached_hash := None |} in
   exists e1 e2 t1 t2 t3,
     (* insertion *)
     hash_property hmac cls e0 = Ok (hmac K m_empty, e1) /\
     tree_setitem e1 key v0 = Ok e2 /\
     tree_entries e2 = [(key, v0)] /\
     hash_property hmac cls e2 = Ok (hmac K m_empty, e2) /\
     calc_hash hmac cls (tree_entries e2) = Ok (hmac K m0) /\
     m_empty <> m0 /\
     (* overwriting *)
     hash_property hmac cls t0 = Ok (hmac K m0, t1) /\
     tree_setitem t1 key v1 = Ok t2 /\
     tree_entries t2 = [(key, v1)] /\
     hash_property hmac cls t2 = Ok (hmac K m0, t2) /\
     calc_hash hmac cls (tree_entries t2) = Ok (hmac K m1) /\
     m0 <> m1 /\
     (* deletion *)
     tree_delitem t1 key = Ok t3 /\
     tree_entries t3 = [] /\
     hash_property hmac cls t3 = Ok (hmac K m0, t3) /\
     calc_hash hmac cls (tree_entries t3) = Ok (hmac K m_empty) /\
     (* decoding *)
     ctx_deserialize cls m0 = Ok (dict_setitem [] key v0, [])).
Proof.
  split; [reflexivity|split; [|split]].
  - intros V Sum cls [d c] h key value Hc. cbn in Hc. subst c.
    eexists. split; [reflexivity|]. cbn [tree_entries].
    split; [reflexivity|split; [exact (dict_setitem_absent d key value)|reflexivity]].
  - intros V Sum cls [d c] h key Hc Hin. cbn in Hc, Hin. subst c.
    destruct (dict_delitem_in d key Hin) as [d1 [v [d2 [Ed E]]]].
    unfold tree_delitem. cbn [tree_entries]. rewrite E. cbn [bind].
    eexists. split; [reflexivity|]. split; [|reflexivity].
    exists d1, v, d2. split; [exact Ed|reflexivity].
  - intros cls K key v0 v1 m_empty m0 m1 e0 t0.
    do 5 eexists.
    repeat (split; [first [reflexivity | discriminate]|]).
    reflexivity.
Qed.

(** ** Round trip: the partition loop and permutations of the entries *)

Lemma bind_inv {A B} (r : result A) (k : A -> result B) b :
  bind r k = Ok b -> exists a, r = Ok a /\ k a = Ok b.
Proof. destruct r as [a|e]; cbn; [eauto|discriminate]. Qed.

Lemma Permutation_filter {A} (f : A -> bool) l l' :
  Permutation l l' -> Permutation (filter f l) (filter f l').
Proof.
  induction 1 as [|x l l' _ IH|x y l|l l' l'' _ IH1 _ IH2]; cbn.
  - constructor.
  - destruct (f x); [constructor|]; exact IH.
  - destruct (f x), (f y); try constructor; reflexivity.
  - etransitivity; eassumption.
Qed.

Section Partition.

Context {V Sum : Type}.
Variable cls : MerbinnerClass V Sum.

Lemma tree_partition_ok depth items l r :
  tree_partition cls depth items = Ok (l, r) ->
  sides_defined depth items /\
  l = filter (fun it => side_of depth (item_key it)) items /\
  r = filter (fun it => negb (side_of depth (item_key it))) items.
Proof.
  revert l r. induction items as [|[[k v] s] items IH]; intros l r H; cbn in H.
  - injection H as <- <-. split; [intros it []|split; reflexivity].
  - destruct (key_side k depth) as [b|e] eqn:Ek; cbn in H; [|discriminate].
    destruct (tree_partition cls depth items) as [[l' r']|e] eqn:Ep; cbn in H; [|discriminate].
    destruct (IH l' r' eq_refl) as [Hd [-> ->]].
    cbn [filter item_key].
    replace (side_of depth k) with b by (unfold side_of; rewrite Ek; reflexivity).
    split.
    + intros it [<-|Hin]; [exists b; exact Ek|exact (Hd it Hin)].
    + destruct b; injection H as <- <-; split; reflexivity.
Qed.

Lemma tree_partition_total depth items :
  sides_defined depth items ->
  tree_partition cls depth items
  = Ok (filter (fun it => side_of depth (item_key it)) items,
        filter (fun it => negb (side_of depth (item_key it))) items).
Proof.
  induction items as [|[[k v] s] items IH]; intros Hd; [reflexivity|].
  cbn [tree_partition filter item_key].
  destruct (Hd (k, v, s) (or_introl eq_refl)) as [b Ek]. cbn [item_key] in Ek.
  rewrite Ek. cbn [bind].
  rewrite IH by (intros it Hin; apply Hd; right; exact Hin). cbn [bind].
  replace (side_of depth k) with b by (unfold side_of; rewrite Ek; reflexivity).
  destruct b; reflexivity.
Qed.

Lemma sides_defined_perm depth (items items' : list (tree_item (V := V) (Sum := Sum))) :
  Permutation items items' -> sides_defined depth items -> sides_defined depth items'.
Proof.
  intros Hp Hd it Hin. apply Hd. apply Permutation_in with items'; [symmetry|]; assumption.
Qed.

End Partition.

Lemma max_key_len_perm {T} (g : T -> list byte) l l' :
  Permutation l l' -> max_key_len g l = max_key_len g l'.
Proof.
  unfold max_key_len.
  induction 1 as [|x l l' _ IH|x y l|l l' l'' _ IH1 _ IH2]; cbn; lia.
Qed.

Lemma filter_partition_perm {A} (f : A -> bool) l :
  Permutation (filter f l ++ filter (fun x => negb (f x)) l) l.
Proof.
  induction l as [|x l IH]; cbn; [constructor|].
  destruct (f x); cbn.
  - constructor. exact IH.
  - symmetry. apply Permutation_cons_app. symmetry. exact IH.
Qed.

Lemma NoDup_map_filter {A B} (g : A -> B) (f : A -> bool) l :
  NoDup (map g l) -> NoDup (map g (filter f l)).
Proof.
  induction l as [|x l IH]; cbn; intros Hn; [constructor|].
  apply NoDup_cons_iff in Hn as [Hx Hl].
  destruct (f x); cbn; [|exact (IH Hl)].
  constructor; [|exact (IH Hl)].
  intros Hin. apply Hx. apply in_map_iff in Hin as [y [Hy Hin]].
  apply filter_In in Hin as [Hin _]. rewrite <- Hy. apply in_map. exact Hin.
Qed.

Lemma firstn_length_app {A} (k rest : list A) : firstn (length k) (k ++ rest) = k.
Proof. induction k as [|a k IH]; cbn; [reflexivity|]. rewrite IH. reflexivity. Qed.

Lemma skipn_length_app {A} (k rest : list A) : skipn (length k) (k ++ rest) = rest.
Proof. induction k as [|a k IH]; cbn; [reflexivity|]. exact IH. Qed.

Lemma fixed_bytes_roundtrip l value k rest :
  write_bytes value (Some l) = Ok k -> read_bytes (Some l) (k ++ rest) = Ok (value, rest).
Proof.
  unfold write_bytes. destruct (Nat.eqb (length value) l) eqn:E; [|discriminate].
  apply Nat.eqb_eq in E. intros H. injection H as <-. subst l.
  unfold read_bytes, fd_read. rewrite length_app.
  replace (Nat.leb (length value) (length value + length rest)) with true
    by (symmetry; apply Nat.leb_le; lia).
  rewrite firstn_length_app, skipn_length_app. reflexivity.
Qed.

Lemma read_varuint_small (b : byte) rest :
  (to_N b < 128)%N -> read_varuint (b :: rest) = Ok (to_N b, rest).
Proof.
  intros Hb. unfold read_varuint. cbn [read_varuint_loop].
  destruct b; cbn in Hb |- *; first [reflexivity | lia].
Qed.

Section RoundTrip.

Variable hmac : list byte -> list byte -> list byte.
Context {V Sum : Type}.
Variable cls : MerbinnerClass V Sum.

Lemma tree_recurse_perm fuel : forall ctx items items' depth res,
  Permutation items items' ->
  tree_recurse hmac cls fuel ctx items depth = Ok res ->
  tree_recurse hmac cls fuel ctx items' depth = Ok res.
Proof.
  induction fuel as [|fuel IH]; intros ctx items items' depth res Hp H.
  - destruct items as [|[[k v] s] [|it items]].
    + apply Permutation_nil in Hp as ->. exact H.
    + apply Permutation_length_1_inv in Hp as ->. exact H.
    + exfalso. destruct it as [[k' v'] s']. cbn [tree_recurse] in H.
      destruct (tree_partition cls depth _) as [[li ri]|e]; discriminate.
  - destruct items as [|it0 [|it1 items]].
    + apply Permutation_nil in Hp as ->. exact H.
    + apply Permutation_length_1_inv in Hp as ->. exact H.
    + assert (Hl : 2 <= length items') by (rewrite <- (Permutation_length Hp); cbn; lia).
      rewrite tree_recurse_inner in H |- * by (cbn; lia).
      destruct (tree_partition cls depth (it0 :: it1 :: items)) as [[li ri]|e] eqn:Ep;
        [|discriminate].
      cbn [bind] in H.
      destruct (tree_partition_ok cls depth _ _ _ Ep) as [Hd [-> ->]].
      rewrite (tree_partition_total cls depth items')
        by exact (sides_defined_perm depth _ _ Hp Hd).
      cbn [bind].
      assert (Hdo : forall f its its' r, Permutation its its' ->
                tree_do_recurse hmac cls fuel ctx (filter f its) depth = Ok r ->
                tree_do_recurse hmac cls fuel ctx (filter f its') depth = Ok r).
      { intros f its its' r Hq Hr. apply (Permutation_filter f) in Hq.
        unfold tree_do_recurse in Hr |- *. destruct ctx.
        - exact (IH _ _ _ _ _ Hq Hr).
        - destruct (tree_recurse hmac cls fuel HashCtx (filter f its) (S depth))
            as [[nc sm]|e] eqn:E; [|discriminate].
          rewrite (IH _ _ _ _ _ Hq E). exact Hr. }
      destruct (tree_do_recurse hmac cls fuel ctx
                  (filter (fun it => side_of depth (item_key it)) (it0 :: it1 :: items)) depth)
        as [[l ls]|e] eqn:El; [|discriminate].
      cbn [bind] in H.
      destruct (tree_do_recurse hmac cls fuel ctx
                  (filter (fun it => negb (side_of depth (item_key it))) (it0 :: it1 :: items)) depth)
        as [[r rs]|e] eqn:Er; [|discriminate].
      rewrite (Hdo _ _ _ _ Hp El), (Hdo _ _ _ _ Hp Er). exact H.
Qed.

Lemma dict_setitem_new (d : entries (V := V)) key value :
  ~ In key (map fst d) -> dict_setitem d key value = d ++ [(key, value)].
Proof.
  induction d as [|[k v] d IH]; cbn; intros Hn; [reflexivity|].
  unfold bytes_eqb. destruct (list_eq_dec Byte.byte_eq_dec k key) as [->|_].
  - exfalso. apply Hn. left. reflexivity.
  - rewrite IH by (intros Hin; apply Hn; right; exact Hin). reflexivity.
Qed.

Lemma map_fst_item_entry (l : list (tree_item (V := V) (Sum := Sum))) :
  map fst (map item_entry l) = map item_key l.
Proof. induction l as [|[[k v] s] l IH]; cbn; [reflexivity|]. rewrite IH. reflexivity. Qed.

Lemma tree_items_ok self items :
  tree_items cls self = Ok items ->
  map item_entry items = self /\
  (forall key value sum, In (key, value, sum) items -> value_getsum cls value = Ok sum).
Proof.
  revert items. induction self as [|[key value] self IH]; intros items H; cbn in H.
  - injection H as <-. split; [reflexivity|intros ? ? ? []].
  - destruct (value_getsum cls value) as [s|e] eqn:Es; cbn in H; [|discriminate].
    destruct (tree_items cls self) as [its|e]; cbn in H; [|discriminate].
    injection H as <-. destruct (IH its eq_refl) as [Hm Hs].
    split; [cbn; rewrite Hm; reflexivity|].
    intros k v s' [Heq|Hin]; [injection Heq as -> -> <-; exact Es|exact (Hs _ _ _ Hin)].
Qed.

Lemma tree_items_of_items items :
  (forall key value sum, In (key, value, sum) items -> value_getsum cls value = Ok sum) ->
  tree_items cls (map item_entry items) = Ok items.
Proof.
  induction items as [|[[key value] sum] items IH]; intros Hs; [reflexivity|].
  cbn [map item_entry tree_items].
  rewrite (Hs key value sum (or_introl eq_refl)). cbn [bind].
  rewrite IH by (intros k v s Hin; apply (Hs k v s); right; exact Hin).
  reflexivity.
Qed.

Section Codecs.

Hypothesis key_roundtrip : forall key k rest,
  key_serialize cls BytesCtx key = Ok k -> key_deserialize cls (k ++ rest) = Ok (key, rest).
Hypothesis value_roundtrip : forall value v rest,
  value_serialize cls BytesCtx value = Ok v -> value_deserialize cls (v ++ rest) = Ok (value, rest).

Ltac set_input x :=
  match goal with
  | |- context [deserialize_recurse _ _ _ ?inp] =>
      replace inp with x by (cbn; rewrite ?app_assoc; reflexivity)
  end.

Lemma decode_empty fuel depth out s :
  tree_recurse hmac cls fuel BytesCtx [] depth = Ok (out, s) -> decodes_to cls out [].
Proof.
  rewrite tree_recurse_empty. intros H. injection H as <- _.
  intros [|df] d0 rest Hl _; [cbn in Hl; lia|].
  set_input (x00 :: rest).
  cbn [deserialize_recurse]. rewrite read_varuint_small by (cbn; lia).
  rewrite app_nil_r. reflexivity.
Qed.

Lemma decode_leaf fuel depth it out s :
  tree_recurse hmac cls fuel BytesCtx [it] depth = Ok (out, s) -> decodes_to cls out [it].
Proof.
  destruct it as [[key value] sum]. rewrite tree_recurse_leaf.
  destruct (key_serialize cls BytesCtx key) as [k|e] eqn:Ek; cbn [bind]; [|discriminate].
  destruct (value_serialize cls BytesCtx value) as [v|e] eqn:Ev; cbn [bind]; [|discriminate].
  intros H. injection H as <- _.
  intros [|df] d0 rest Hl Hf; [cbn in Hl; lia|].
  set_input (x01 :: k ++ (v ++ rest)).
  cbn [deserialize_recurse]. rewrite read_varuint_small by (cbn; lia).
  cbn [bind to_N N.eqb Pos.eqb].
  rewrite (key_roundtrip _ _ _ Ek). cbn [bind].
  rewrite (value_roundtrip _ _ _ Ev). cbn [bind].
  rewrite dict_setitem_new by exact (Hf _ (or_introl eq_refl)).
  reflexivity.
Qed.

Lemma decode_tree fuel : forall items depth out s,
  tree_recurse hmac cls fuel BytesCtx items depth = Ok (out, s) ->
  NoDup (map item_key items) ->
  exists leaves, Permutation leaves items /\ decodes_to cls out leaves.
Proof.
  induction fuel as [|fuel IH]; intros items depth out s H Hnd.
  - destruct items as [|it0 [|it1 items]].
    + exists []. split; [constructor|exact (decode_empty _ _ _ _ H)].
    + exists [it0]. split; [reflexivity|exact (decode_leaf _ _ _ _ _ H)].
    + exfalso. destruct it0 as [[k v] s0]. cbn [tree_recurse] in H.
      destruct (tree_partition cls depth _) as [[li ri]|e]; discriminate.
  - destruct items as [|it0 [|it1 items]].
    + exists []. split; [constructor|exact (decode_empty _ _ _ _ H)].
    + exists [it0]. split; [reflexivity|exact (decode_leaf _ _ _ _ _ H)].
    + set (its := it0 :: it1 :: items) in *.
      rewrite tree_recurse_inner in H by (cbn; lia).
      destruct (tree_partition cls depth its) as [[li ri]|e] eqn:Ep; [|discriminate].
      cbn [bind tree_do_recurse] in H.
      destruct (tree_partition_ok cls depth _ _ _ Ep) as [_ [-> ->]].
      set (L := filter (fun it => side_of depth (item_key it)) its) in *.
      set (R := filter (fun it => negb (side_of depth (item_key it))) its) in *.
      destruct (tree_recurse hmac cls fuel BytesCtx L (S depth)) as [[l ls]|e] eqn:El;
        [|discriminate].
      cbn [bind] in H.
      destruct (tree_recurse hmac cls fuel BytesCtx R (S depth)) as [[r rs]|e] eqn:Er;
        [|discriminate].
      cbn [bind] in H. injection H as <- _.
      destruct (IH L (S depth) l ls El (NoDup_map_filter _ _ _ Hnd)) as [lL [PL DL]].
      destruct (IH R (S depth) r rs Er (NoDup_map_filter _ _ _ Hnd)) as [lR [PR DR]].
      exists (lL ++ lR). split.
      { etransitivity; [apply Permutation_app; eassumption|apply filter_partition_perm]. }
      intros [|df] d0 rest Hl Hf; [cbn in Hl; lia|].
      cbn [length] in Hl. rewrite ?length_app in Hl. cbn [length] in Hl.
      set_input (x02 :: l ++ (r ++ rest)).
      cbn [deserialize_recurse]. rewrite read_varuint_small by (cbn; lia).
      cbn [bind to_N N.eqb Pos.eqb].
      rewrite (DL df d0 (r ++ rest)) by
        (try lia; intros it Hin; apply Hf, in_or_app; left; exact Hin).
      cbn [bind].
      rewrite (DR df (d0 ++ map item_entry lL) rest).
      { rewrite map_app, app_assoc. reflexivity. }
      { lia. }
      intros it Hin. rewrite map_app, in_app_iff, map_fst_item_entry. intros [A|B].
      { exact (Hf it (in_or_app _ _ _ (or_intror Hin)) A). }
      apply in_map_iff in B as [itL [Hk HinL]].
      apply (Permutation_in _ PL), filter_In in HinL as [_ SL].
      apply (Permutation_in _ PR), filter_In in Hin as [_ SR].
      rewrite <- Hk, SL in SR. discriminate.
Qed.

Lemma serialize_decodes self b :
  NoDup (map fst self) -> serialize hmac cls self = Ok b ->
  exists self', Permutation self' self /\
    (forall s, deserialize cls (b ++ s) = Ok self') /\
    serialize hmac cls self' = Ok b.
Proof.
  intros Hnd H. unfold serialize, ctx_serialize in H.
  destruct (tree_items cls self) as [items|e] eqn:Ei; cbn [bind] in H; [|discriminate].
  destruct (tree_recurse hmac cls (tree_fuel self) BytesCtx items 0) as [[out fs]|e] eqn:Et;
    cbn [bind] in H; [|discriminate].
  injection H as <-.
  destruct (tree_items_ok _ _ Ei) as [Hm Hs].
  assert (Hnd' : NoDup (map item_key items))
    by (rewrite <- map_fst_item_entry, Hm; exact Hnd).
  destruct (decode_tree _ _ _ _ _ Et Hnd') as [leaves [Pl Dl]].
  assert (Pe : Permutation (map item_entry leaves) self)
    by (rewrite <- Hm; apply Permutation_map; exact Pl).
  exists (map item_entry leaves). split; [exact Pe|split].
  - intros s. unfold deserialize, ctx_deserialize.
    rewrite (Dl (S (length (out ++ s))) [] s); [reflexivity| |intros it _ []].
    rewrite length_app. lia.
  - unfold serialize, ctx_serialize.
    replace (tree_fuel (map item_entry leaves)) with (tree_fuel self)
      by (unfold tree_fuel; rewrite (max_key_len_perm fst _ _ Pe); reflexivity).
    rewrite tree_items_of_items
      by (intros k v sm Hin; exact (Hs k v sm (Permutation_in _ Pl Hin))).
    cbn [bind].
    rewrite (tree_recurse_perm _ _ _ _ _ _ (Permutation_sym Pl) Et). reflexivity.
Qed.

End Codecs.

End RoundTrip.

Lemma bytesbytes_codecs :
  (forall key k rest, key_serialize BytesBytesMerbinnerTree BytesCtx key = Ok k ->
     key_deserialize BytesBytesMerbinnerTree (k ++ rest) = Ok (key, rest)) /\
  (forall value v rest, value_serialize BytesBytesMerbinnerTree BytesCtx value = Ok v ->
     value_deserialize BytesBytesMerbinnerTree (v ++ rest) = Ok (value, rest)).
Proof. split; intros x y rest H; exact (fixed_bytes_roundtrip 4 _ _ _ H). Qed.

Lemma roundtrip_tree_dict : NoDup (map fst roundtrip_tree).
Proof. repeat constructor; cbn; intuition discriminate. Qed.

(** C6: round trip of a tree object. For a [MerbinnerTree] class whose
    key and value codecs read back what they write, and a [dict] (keys
    pairwise distinct) that serializes to [b], [deserialize b] succeeds and
    gives a [dict] with the same entries (Python [==] on dicts: the same
    (key, value) pairs, here possibly in another insertion order), and
    serializing that [dict] again gives [b] byte for byte. *)
Theorem merbinner_tree_roundtrip hmac {V Sum} (cls : MerbinnerClass V Sum)
  (self : entries) (b : list byte)
  (Hkey : forall key k rest, key_serialize cls BytesCtx key = Ok k ->
            key_deserialize cls (k ++ rest) = Ok (key, rest))
  (Hval : forall value v rest, value_serialize cls BytesCtx value = Ok v ->
            value_deserialize cls (v ++ rest) = Ok (value, rest))
  (Hdict : NoDup (map fst self))
  (Hser : serialize hmac cls self = Ok b) :
  exists self', deserialize cls b = Ok self' /\ Permutation self' self /\
    serialize hmac cls self' = Ok b.
Proof.
  destruct (serialize_decodes hmac cls Hkey Hval self b Hdict Hser) as [self' [Hp [Hd Hs]]].
  exists self'. split; [|split; assumption].
  rewrite <- (app_nil_r b). exact (Hd []).
Qed.

Lemma merbinner_tree_roundtrip_witness :
  NoDup (map fst roundtrip_tree) /\
  serialize zero_digest BytesBytesMerbinnerTree roundtrip_tree = Ok roundtrip_bytes /\
  exists self', deserialize BytesBytesMerbinnerTree roundtrip_bytes = Ok self' /\
    Permutation self' roundtrip_tree /\
    serialize zero_digest BytesBytesMerbinnerTree self' = Ok roundtrip_bytes.
Proof.
  split; [exact roundtrip_tree_dict|split; [vm_compute; reflexivity|]].
  apply (merbinner_tree_roundtrip zero_digest BytesBytesMerbinnerTree).
  - exact (proj1 bytesbytes_codecs).
  - exact (proj2 bytesbytes_codecs).
  - exact roundtrip_tree_dict.
  - vm_compute. reflexivity.
Defined.

(** C10: a byte buffer need not be read to its end. Under the same
    conditions as C6, for every suffix [s], [deserialize (b ++ s)]
    succeeds, ignores [s], and gives the same [dict] for every [s], one
    with the entries of the serialized one. *)
Theorem deserialize_ignores_trailing_bytes hmac {V Sum} (cls : MerbinnerClass V Sum)
  (self : entries) (b : list byte)
  (Hkey : forall key k rest, key_serialize cls BytesCtx key = Ok k ->
            key_deserialize cls (k ++ rest) = Ok (key, rest))
  (Hval : forall value v rest, value_serialize cls BytesCtx value = Ok v ->
            value_deserialize cls (v ++ rest) = Ok (value, rest))
  (Hdict : NoDup (map fst self))
  (Hser : serialize hmac cls self = Ok b) :
  exists self', Permutation self' self /\
    forall s, deserialize cls (b ++ s) = Ok self'.
Proof.
  destruct (serialize_decodes hmac cls Hkey Hval self b Hdict Hser) as [self' [Hp [Hd _]]].
  exists self'. split; assumption.
Qed.

Lemma deserialize_ignores_trailing_bytes_witness :
  NoDup (map fst roundtrip_tree) /\
  serialize zero_digest BytesBytesMerbinnerTree roundtrip_tree = Ok roundtrip_bytes /\
  exists self', Permutation self' roundtrip_tree /\
    forall s, deserialize BytesBytesMerbinnerTree (roundtrip_bytes ++ s) = Ok self'.
Proof.
  split; [exact roundtrip_tree_dict|split; [vm_compute; reflexivity|]].
  apply (deserialize_ignores_trailing_bytes zero_digest BytesBytesMerbinnerTree).
  - exact (proj1 bytesbytes_codecs).
  - exact (proj2 bytesbytes_codecs).
  - exact roundtrip_tree_dict.
  - vm_compute. reflexivity.
Defined.

(** * Further properties of the code *)

(** ** Byte fields *)

Lemma read_write_varuint n rest : read_varuint (write_varuint n ++ rest) = Ok (n, rest).
Proof.
  unfold write_varuint, read_varuint. destruct (N.eqb_spec n 0) as [->|Hn].
  - reflexivity.
  - destruct (write_varuint_loop_spec (N.to_nat (N.size n)) n) as [_ [R _]]; [lia|lia|].
    rewrite R, N.lor_0_l, N.shiftl_0_r. reflexivity.
Qed.

Lemma write_varuint_bytes n :
  forall i b, nth_error (write_varuint n) i = Some b ->
  (N.land (Byte.to_N b) 128 =? 0)%N = negb (Nat.ltb (i + 1) (length (write_varuint n))).
Proof.
  intros i b Hi.
  assert (Hl : i < length (write_varuint n))
    by (apply nth_error_Some; rewrite Hi; discriminate).
  assert (B : nth_error (write_varuint n) i
              = Some (leb128_byte n (length (write_varuint n)) i)).
  { unfold write_varuint in *. destruct (N.eqb_spec n 0) as [->|Hn].
    - cbn in Hl |- *. destruct i; [reflexivity|lia].
    - destruct (write_varuint_loop_spec (N.to_nat (N.size n)) n) as [_ [_ B]]; [lia|lia|].
      exact (B i Hl). }
  rewrite Hi in B. injection B as ->. unfold leb128_byte.
  destruct (low_byte_facts _ (land127_lt (N.shiftr n (N.of_nat (7 * i)))))
    as [E1 [E2 [_ [F4 F5]]]].
  destruct (Nat.ltb (i + 1) (length (write_varuint n))); cbn [negb].
  - rewrite F5. apply N.eqb_neq. exact F4.
  - rewrite N.lor_0_r, E1. apply N.eqb_eq. exact E2.
Qed.

Lemma read_varuint_loop_cont p : forall acc s,
  (forall b, In b p -> (N.land (Byte.to_N b) 128 =? 0)%N = false) ->
  read_varuint_loop p acc s = Err AssertionError.
Proof.
  induction p as [|b p IH]; intros acc s H; [reflexivity|].
  cbn [read_varuint_loop]. rewrite (H b (or_introl eq_refl)).
  apply IH. intros c Hc. exact (H c (or_intror Hc)).
Qed.

Lemma read_varuint_prefix n p s :
  write_varuint n = p ++ s -> s <> [] -> read_varuint p = Err AssertionError.
Proof.
  intros E Hs. unfold read_varuint. apply read_varuint_loop_cont.
  intros b Hb. apply In_nth_error in Hb as [i Hi].
  assert (Hi' : nth_error (write_varuint n) i = Some b)
    by (rewrite E, nth_error_app1; [exact Hi|apply nth_error_Some; rewrite Hi; discriminate]).
  rewrite (write_varuint_bytes n i b Hi').
  assert (i < length p) by (apply nth_error_Some; rewrite Hi; discriminate).
  assert (length s <> 0) by (destruct s; [contradiction|cbn; lia]).
  rewrite E, length_app. destruct (Nat.ltb_spec (i + 1) (length p + length s)); [reflexivity|lia].
Qed.

(** Extra: a field written by [write_bytes] is read back by [read_bytes]
    with the same [expected_length], whatever follows it: with [None] the
    length prefix and then the bytes, with [Some l] the bytes alone. *)
Theorem bytes_field_roundtrip (v : list byte) (el : option nat) (k rest : list byte) :
  write_bytes v el = Ok k -> read_bytes el (k ++ rest) = Ok (v, rest).
Proof.
  destruct el as [l|]; [apply fixed_bytes_roundtrip|].
  cbn [write_bytes]. intros H. injection H as <-.
  cbn [read_bytes]. rewrite <- app_assoc, read_write_varuint. cbn [bind].
  rewrite Nat2N.id. unfold fd_read.
  rewrite length_app, (proj2 (Nat.leb_le _ _)) by lia.
  rewrite firstn_length_app, skipn_length_app. reflexivity.
Qed.

Lemma bytes_field_roundtrip_witness :
  write_bytes (bs [0xde; 0xad]%N) None = Ok (bs [2; 0xde; 0xad]%N) /\
  read_bytes None (bs [2; 0xde; 0xad]%N ++ bs [7]%N) = Ok (bs [0xde; 0xad]%N, bs [7]%N).
Proof.
  split; [reflexivity|].
  apply bytes_field_roundtrip. reflexivity.
Defined.

(** Extra: reading a truncated field raises. If [p] is a strict prefix of
    the encoding of a varuint, [read_varuint p] raises; if [p] is a strict
    prefix of what [write_bytes v None] writes (length prefix, then the
    bytes), [read_bytes None p] raises. *)
Theorem truncated_field_raises :
  (forall n p s, write_varuint n = p ++ s -> s <> [] ->
     read_varuint p = Err AssertionError) /\
  (forall v p s, write_bytes v None = Ok (p ++ s) -> s <> [] ->
     read_bytes None p = Err AssertionError).
Proof.
  split; [exact read_varuint_prefix|].
  intros v p s H Hs. cbn [write_bytes] in H. injection H as H.
  apply app_eq_app in H as [m [[E1 E2]|[E1 E2]]].
  - (* [p] stops inside the length prefix *)
    destruct m as [|c m].
    + rewrite app_nil_r in E1. subst p. cbn in E2. subst s.
      cbn [read_bytes]. rewrite <- (app_nil_r (write_varuint _)), read_write_varuint.
      cbn [bind]. rewrite Nat2N.id. unfold fd_read.
      destruct v as [|c v]; [contradiction|]. reflexivity.
    + cbn [read_bytes].
      rewrite (read_varuint_prefix _ p (c :: m) E1 ltac:(discriminate)). reflexivity.
  - (* [p] stops inside the bytes *)
    subst p. cbn [read_bytes]. rewrite read_write_varuint. cbn [bind].
    rewrite Nat2N.id. unfold fd_read.
    assert (length m < length v).
    { rewrite E2, length_app. destruct s; [contradiction|cbn; lia]. }
    rewrite (proj2 (Nat.leb_gt _ _)) by exact H. reflexivity.
Qed.

(** ** Decoding accepts more than the encoder writes *)

Section DecodeSteps.

Context {V Sum : Type}.
Variable cls : MerbinnerClass V Sum.

Lemma dr_empty f d rest :
  deserialize_recurse cls (S f) d (x00 :: rest) = Ok (d, rest).
Proof. reflexivity. Qed.

Lemma dr_inner f d rest :
  deserialize_recurse cls (S f) d (x02 :: rest)
  = ('(d1, r1) <- deserialize_recurse cls f d rest ;; deserialize_recurse cls f d1 r1).
Proof. reflexivity. Qed.

Lemma dr_leaf f d key value k v rest :
  key_deserialize cls (k ++ v ++ rest) = Ok (key, v ++ rest) ->
  value_deserialize cls (v ++ rest) = Ok (value, rest) ->
  deserialize_recurse cls (S f) d ((x01 :: k ++ v) ++ rest)
  = Ok (dict_setitem d key value, rest).
Proof.
  intros Hk Hv. cbn [deserialize_recurse app].
  rewrite <- app_assoc.
  change (read_varuint (x01 :: k ++ v ++ rest)) with (Ok (1%N, k ++ v ++ rest) : result _).
  cbn [bind N.eqb Pos.eqb]. rewrite Hk. cbn [bind]. rewrite Hv. reflexivity.
Qed.

End DecodeSteps.

Lemma bytes_eqb_refl k : bytes_eqb k k = true.
Proof. unfold bytes_eqb. destruct (list_eq_dec Byte.byte_eq_dec k k); [reflexivity|contradiction]. Qed.

Ltac fix_fuel f :=
  match goal with
  | |- context [deserialize_recurse _ (S (length ?x)) _ _] =>
      replace (S (length x)) with f
        by (repeat (rewrite length_app || rewrite length_cons); cbn [length]; lia)
  end.

Ltac fix_input x :=
  match goal with
  | |- context [deserialize_recurse _ _ _ ?inp] =>
      replace inp with x by (cbn; rewrite <- ?app_assoc, ?app_nil_r; reflexivity)
  end.

(** Extra: the decoder does not reject repeated keys. A stream of an inner
    node whose two leaves carry the same key decodes, by [self[key] =
    value], to the one-entry tree holding the second value; serializing
    that tree gives a different, shorter stream. *)
Theorem decode_duplicate_keys_last_wins hmac {V Sum} (cls : MerbinnerClass V Sum)
  (Hkey : forall key k rest, key_serialize cls BytesCtx key = Ok k ->
            key_deserialize cls (k ++ rest) = Ok (key, rest))
  (Hval : forall value v rest, value_serialize cls BytesCtx value = Ok v ->
            value_deserialize cls (v ++ rest) = Ok (value, rest))
  key value1 value2 k v1 v2 s
  (Hk : key_serialize cls BytesCtx key = Ok k)
  (Hv1 : value_serialize cls BytesCtx value1 = Ok v1)
  (Hv2 : value_serialize cls BytesCtx value2 = Ok v2)
  (Hs : value_getsum cls value2 = Ok s) :
  deserialize cls ([x02] ++ ([x01] ++ k ++ v1) ++ ([x01] ++ k ++ v2)) = Ok [(key, value2)] /\
  serialize hmac cls [(key, value2)] = Ok ([x01] ++ k ++ v2) /\
  [x02] ++ ([x01] ++ k ++ v1) ++ ([x01] ++ k ++ v2) <> [x01] ++ k ++ v2.
Proof.
  split; [|split].
  - unfold deserialize, ctx_deserialize.
    fix_fuel (S (S (S (S (length (k ++ v1) + length (k ++ v2)))))).
    fix_input (x02 :: ((x01 :: k ++ v1) ++ ((x01 :: k ++ v2) ++ []))).
    rewrite dr_inner.
    rewrite (dr_leaf cls _ _ key value1 k v1)
      by (first [exact (Hkey _ _ _ Hk) | exact (Hval _ _ _ Hv1)]).
    cbn [bind].
    rewrite (dr_leaf cls _ _ key value2 k v2)
      by (first [exact (Hkey _ _ _ Hk) | exact (Hval _ _ _ Hv2)]).
    cbn [bind dict_setitem]. rewrite bytes_eqb_refl. reflexivity.
  - unfold serialize, ctx_serialize. cbn [tree_items]. rewrite Hs. cbn [bind].
    rewrite tree_recurse_leaf, Hk. cbn [bind]. rewrite Hv2. reflexivity.
  - intros E. apply (f_equal (@length byte)) in E.
    rewrite !length_app in E. cbn in E. lia.
Qed.

Lemma decode_duplicate_keys_last_wins_witness :
  key_serialize BytesBytesMerbinnerTree BytesCtx (bs [0xff; 0xff; 0xff; 0xff]%N)
  = Ok (bs [0xff; 0xff; 0xff; 0xff]%N) /\
  deserialize BytesBytesMerbinnerTree
    ([x02] ++ ([x01] ++ bs [0xff; 0xff; 0xff; 0xff]%N ++ bs [0xde; 0xad; 0xbe; 0xef]%N)
          ++ ([x01] ++ bs [0xff; 0xff; 0xff; 0xff]%N ++ bs [0xca; 0xfe; 0xba; 0xbe]%N))
  = Ok [(bs [0xff; 0xff; 0xff; 0xff]%N, bs [0xca; 0xfe; 0xba; 0xbe]%N)].
Proof.
  split; [reflexivity|].
  refine (proj1 (decode_duplicate_keys_last_wins zero_digest BytesBytesMerbinnerTree
    (proj1 bytesbytes_codecs) (proj2 bytesbytes_codecs)
    _ (bs [0xde; 0xad; 0xbe; 0xef]%N) _ _ _ _ 0%N _ _ _ _));
    reflexivity.
Defined.

(** Extra: the decoder does not check that a stream is the one the encoder
    writes. The one-entry tree [{key: value}] serializes to the leaf
    [01 || key || value]; that stream, and also an inner node with an empty
    left child and that leaf on the right, or with the leaf on the left and
    an empty right child, all decode to the same tree. *)
Theorem decode_accepts_noncanonical_nodes hmac {V Sum} (cls : MerbinnerClass V Sum)
  (Hkey : forall key k rest, key_serialize cls BytesCtx key = Ok k ->
            key_deserialize cls (k ++ rest) = Ok (key, rest))
  (Hval : forall value v rest, value_serialize cls BytesCtx value = Ok v ->
            value_deserialize cls (v ++ rest) = Ok (value, rest))
  key value k v s
  (Hk : key_serialize cls BytesCtx key = Ok k)
  (Hv : value_serialize cls BytesCtx value = Ok v)
  (Hs : value_getsum cls value = Ok s) :
  serialize hmac cls [(key, value)] = Ok ([x01] ++ k ++ v) /\
  deserialize cls ([x01] ++ k ++ v) = Ok [(key, value)] /\
  deserialize cls ([x02; x00] ++ ([x01] ++ k ++ v)) = Ok [(key, value)] /\
  deserialize cls ([x02] ++ ([x01] ++ k ++ v) ++ [x00]) = Ok [(key, value)].
Proof.
  split; [|split; [|split]].
  - unfold serialize, ctx_serialize. cbn [tree_items]. rewrite Hs. cbn [bind].
    rewrite tree_recurse_leaf, Hk. cbn [bind]. rewrite Hv. reflexivity.
  - unfold deserialize, ctx_deserialize.
    fix_fuel (S (S (length (k ++ v)))).
    fix_input ((x01 :: k ++ v) ++ []).
    rewrite (dr_leaf cls _ _ key value k v)
      by (first [exact (Hkey _ _ _ Hk) | exact (Hval _ _ _ Hv)]).
    reflexivity.
  - unfold deserialize, ctx_deserialize.
    fix_fuel (S (S (S (S (length (k ++ v)))))).
    fix_input (x02 :: x00 :: ((x01 :: k ++ v) ++ [])).
    rewrite dr_inner, dr_empty. cbn [bind].
    rewrite (dr_leaf cls _ _ key value k v)
      by (first [exact (Hkey _ _ _ Hk) | exact (Hval _ _ _ Hv)]).
    reflexivity.
  - unfold deserialize, ctx_deserialize.
    fix_fuel (S (S (S (S (length (k ++ v)))))).
    fix_input (x02 :: ((x01 :: k ++ v) ++ [x00])).
    rewrite dr_inner.
    rewrite (dr_leaf cls _ _ key value k v)
      by (first [exact (Hkey _ _ _ Hk) | exact (Hval _ _ _ Hv)]).
    cbn [bind]. rewrite dr_empty. reflexivity.
Qed.

Lemma decode_accepts_noncanonical_nodes_witness :
  value_getsum BytesBytesMerbinnerTree (bs [0xde; 0xad; 0xbe; 0xef]%N) = Ok 0%N /\
  deserialize BytesBytesMerbinnerTree
    ([x02; x00] ++ ([x01] ++ bs [0xff; 0xff; 0xff; 0xff]%N ++ bs [0xde; 0xad; 0xbe; 0xef]%N))
  = Ok [(bs [0xff; 0xff; 0xff; 0xff]%N, bs [0xde; 0xad; 0xbe; 0xef]%N)].
Proof.
  split; [reflexivity|].
  refine (proj1 (proj2 (proj2 (decode_accepts_noncanonical_nodes zero_digest
    BytesBytesMerbinnerTree (proj1 bytesbytes_codecs) (proj2 bytesbytes_codecs)
    _ _ _ _ 0%N _ _ _))));
    reflexivity.
Defined.

(** ** The unsummed tree hash against [calc_merbinner_hash] *)

Lemma write_bytes_fixed_inv v l k : write_bytes v (Some l) = Ok k -> k = v.
Proof.
  unfold write_bytes. destruct (Nat.eqb (length v) l); [|discriminate].
  intros H. injection H as <-. reflexivity.
Qed.

Section UnsummedHash.

Variable hmac : list byte -> list byte -> list byte.
Context {V Sum : Type}.
Variable cls : MerbinnerClass V Sum.

Hypothesis key_hash_id : forall key, key_gethash cls key = key.
Hypothesis key_hash_ser : forall key k,
  key_serialize cls HashCtx key = Ok k -> k = key_gethash cls key.
Hypothesis value_hash_ser : forall value v,
  value_serialize cls HashCtx value = Ok v -> v = value_gethash cls value.
Hypothesis no_sum_bytes : forall s, sum_serialize cls HashCtx s = Ok [].

Lemma hash_partition_map depth items l r :
  tree_partition cls depth items = Ok (l, r) ->
  hash_partition depth (map (unsummed_item cls) items)
  = Ok (map (unsummed_item cls) l, map (unsummed_item cls) r).
Proof.
  revert l r. induction items as [|[[key value] s] items IH]; intros l r H; cbn in H.
  - injection H as <- <-. reflexivity.
  - cbn [map unsummed_item hash_partition]. rewrite key_hash_id.
    destruct (key_side key depth) as [b|e]; cbn in H |- *; [|discriminate].
    destruct (tree_partition cls depth items) as [[l' r']|e]; cbn in H; [|discriminate].
    rewrite (IH l' r' eq_refl). cbn [bind].
    destruct b; injection H as <- <-; cbn [map unsummed_item]; rewrite key_hash_id; reflexivity.
Qed.

Lemma unsummed_rec fuel : forall items depth out s,
  tree_recurse hmac cls fuel HashCtx items depth = Ok (out, s) ->
  calc_summed_merbinner_hash_rec (hmac (HASH_HMAC_KEY cls)) (fun _ : N => Ok []) N.add 0%N
    fuel (map (unsummed_item cls) items) depth
  = Ok (hmac (HASH_HMAC_KEY cls) out, 0%N).
Proof.
  induction fuel as [|fuel IH]; intros items depth out s H;
    (destruct items as [|[[key value] sm] [|it1 items]];
     [ rewrite tree_recurse_empty in H; injection H as <- _; cbn [map];
       rewrite hash_rec_empty; reflexivity
     | rewrite tree_recurse_leaf in H;
       destruct (key_serialize cls HashCtx key) as [k|e] eqn:Ek; cbn [bind] in H; [|discriminate];
       destruct (value_serialize cls HashCtx value) as [v|e] eqn:Ev; cbn [bind] in H; [|discriminate];
       injection H as <- _; cbn [map unsummed_item]; rewrite hash_rec_leaf; cbn [bind];
       rewrite app_nil_r, <- (key_hash_ser _ _ Ek), <- (value_hash_ser _ _ Ev); reflexivity
     | ]).
  - exfalso. destruct it1 as [[k1 v1] s1]. cbn [tree_recurse] in H.
    destruct (tree_partition cls depth _) as [[li ri]|e]; discriminate.
  - rewrite tree_recurse_inner in H by (cbn; lia).
    match type of H with
    | context [tree_partition cls depth ?its] =>
        destruct (tree_partition cls depth its) as [[li ri]|e] eqn:Ep; [|discriminate]
    end.
    cbn [bind tree_do_recurse] in H.
    destruct (tree_recurse hmac cls fuel HashCtx li (S depth)) as [[ln ls]|e] eqn:El;
      cbn [bind] in H; [|discriminate].
    destruct (write_bytes (hmac (HASH_HMAC_KEY cls) ln) (Some 32)) as [lh|e] eqn:Elh;
      cbn [bind] in H; [|discriminate].
    rewrite no_sum_bytes in H. cbn [bind] in H.
    destruct (tree_recurse hmac cls fuel HashCtx ri (S depth)) as [[rn rs]|e] eqn:Er;
      cbn [bind] in H; [|discriminate].
    destruct (write_bytes (hmac (HASH_HMAC_KEY cls) rn) (Some 32)) as [rh|e] eqn:Erh;
      cbn [bind] in H; [|discriminate].
    rewrite no_sum_bytes in H. cbn [bind] in H.
    injection H as <- _.
    apply write_bytes_fixed_inv in Elh as ->. apply write_bytes_fixed_inv in Erh as ->.
    rewrite hash_rec_inner by (cbn; lia).
    rewrite (hash_partition_map _ _ _ _ Ep). cbn [bind].
    rewrite (IH _ _ _ _ El), (IH _ _ _ _ Er). cbn [bind].
    rewrite !app_nil_r. reflexivity.
Qed.

End UnsummedHash.

(** Extra: for a tree class whose key hash is the key itself, whose keys
    and values are written under the hashing context as their hashes, and
    whose sums are written as no bytes (as [BytesBytesMerbinnerTree] of
    the tests), the tree's hash, when it is computed, equals
    [calc_merbinner_hash] over the (key hash, value hash) pairs with the
    class's keyed HMAC. *)
Theorem unsummed_tree_hash_matches_standalone hmac {V Sum} (cls : MerbinnerClass V Sum)
  (Hkid : forall key, key_gethash cls key = key)
  (Hks : forall key k, key_serialize cls HashCtx key = Ok k -> k = key_gethash cls key)
  (Hvs : forall value v, value_serialize cls HashCtx value = Ok v -> v = value_gethash cls value)
  (Hsum : forall s, sum_serialize cls HashCtx s = Ok [])
  (self : entries) (h : list byte) :
  calc_hash hmac cls self = Ok h ->
  calc_merbinner_hash (hmac (HASH_HMAC_KEY cls))
    (map (fun '(key, value) => (key_gethash cls key, value_gethash cls value)) self)
  = Ok h.
Proof.
  unfold calc_hash, ctx_serialize.
  destruct (tree_items cls self) as [items|e] eqn:Ei; cbn [bind]; [|discriminate].
  destruct (tree_recurse hmac cls (tree_fuel self) HashCtx items 0) as [[out fs]|e] eqn:Et;
    cbn [bind]; [|discriminate].
  intros H. injection H as <-.
  destruct (tree_items_ok cls _ _ Ei) as [Hm _].
  assert (Hmap : map (fun '(k, v) => (k, v, 0%N))
                   (map (fun '(key, value) => (key_gethash cls key, value_gethash cls value)) self)
                 = map (unsummed_item cls) items).
  { rewrite <- Hm. clear. induction items as [|[[k v] s] items IH]; cbn; [reflexivity|].
    rewrite IH. reflexivity. }
  assert (Hfuel : max_key_len hash_item_key (map (unsummed_item cls) items) = max_key_len fst self).
  { rewrite <- Hm. clear -Hkid. induction items as [|[[k v] s] items IH]; cbn; [reflexivity|].
    unfold max_key_len in IH. rewrite IH, Hkid. reflexivity. }
  unfold calc_merbinner_hash, calc_summed_merbinner_hash. rewrite Hmap, Hfuel.
  fold (tree_fuel self).
  rewrite (unsummed_rec hmac cls Hkid Hks Hvs Hsum _ _ _ _ _ Et). reflexivity.
Qed.

Lemma unsummed_tree_hash_matches_standalone_witness :
  calc_hash zero_digest BytesBytesMerbinnerTree roundtrip_tree = Ok (repeat x00 32) /\
  calc_merbinner_hash (zero_digest (HASH_HMAC_KEY BytesBytesMerbinnerTree))
    (map (fun '(key, value) => (key_gethash BytesBytesMerbinnerTree key,
                                value_gethash BytesBytesMerbinnerTree value)) roundtrip_tree)
  = Ok (repeat x00 32).
Proof.
  assert (H : calc_hash zero_digest BytesBytesMerbinnerTree roundtrip_tree = Ok (repeat x00 32))
    by (vm_compute; reflexivity).
  split; [exact H|].
  apply (unsummed_tree_hash_matches_standalone zero_digest BytesBytesMerbinnerTree).
  - intros key. reflexivity.
  - intros key k Hk. exact (write_bytes_fixed_inv _ _ _ Hk).
  - intros value v Hv. exact (write_bytes_fixed_inv _ _ _ Hv).
  - intros s. reflexivity.
  - exact H.
Defined.

(** ** Sums *)

Lemma hash_partition_ok {Sum} depth (items : list (hash_item (Sum := Sum))) l r :
  hash_partition depth items = Ok (l, r) ->
  l = filter (fun it => side_of depth (hash_item_key it)) items /\
  r = filter (fun it => negb (side_of depth (hash_item_key it))) items.
Proof.
  revert l r. induction items as [|[[k v] s] items IH]; intros l r H; cbn in H.
  - injection H as <- <-. split; reflexivity.
  - destruct (key_side k depth) as [b|e] eqn:Ek; cbn in H; [|discriminate].
    destruct (hash_partition depth items) as [[l' r']|e] eqn:Ep; cbn in H; [|discriminate].
    destruct (IH l' r' eq_refl) as [-> ->].
    cbn [filter hash_item_key].
    replace (side_of depth k) with b by (unfold side_of; rewrite Ek; reflexivity).
    destruct b; injection H as <- <-; split; reflexivity.
Qed.

Section SumTotals.

Context {T S : Type}.
Variable get : T -> S.
Variable sf : S -> S -> S.
Variable e : S.
Hypothesis sf_assoc : forall a b c, sf a (sf b c) = sf (sf a b) c.
Hypothesis sf_comm : forall a b, sf a b = sf b a.

Lemma fold_filter_split (f : T -> bool) l :
  sf (fold_right sf e (map get (filter f l)))
     (fold_right sf e (map get (filter (fun x => negb (f x)) l)))
  = sf (fold_right sf e (map get l)) e.
Proof.
  induction l as [|x l IH]; cbn; [reflexivity|].
  destruct (f x); cbn.
  - rewrite <- sf_assoc, IH, sf_assoc. reflexivity.
  - rewrite (sf_assoc _ (get x)), (sf_comm _ (get x)), <- sf_assoc, IH, sf_assoc.
    reflexivity.
Qed.

End SumTotals.

(** Extra: with a [sum_func] that is associative and commutative and has
    [empty_sum] (resp. [SUM_IDENTITY]) as identity, as [operator.add] and
    [0], the sum returned for a node, by [calc_summed_merbinner_hash] and
    by the tree's [recurse] alike (in any context), is the total of the
    node's entries' sums, whatever the shape of the tree. *)
Theorem node_sum_is_total :
  (forall {Sum} (hf : list byte -> list byte) ssf (sf : Sum -> Sum -> Sum) e,
     (forall a b c, sf a (sf b c) = sf (sf a b) c) ->
     (forall a b, sf a b = sf b a) ->
     (forall a, sf a e = a) ->
     forall fuel items depth h s,
     calc_summed_merbinner_hash_rec hf ssf sf e fuel items depth = Ok (h, s) ->
     s = fold_right sf e (map (fun '(_, _, s') => s') items)) /\
  (forall hmac {V Sum} (cls : MerbinnerClass V Sum),
     (forall a b c, sum_func cls a (sum_func cls b c) = sum_func cls (sum_func cls a b) c) ->
     (forall a b, sum_func cls a b = sum_func cls b a) ->
     (forall a, sum_func cls a (SUM_IDENTITY cls) = a) ->
     forall fuel ctx items depth out s,
     tree_recurse hmac cls fuel ctx items depth = Ok (out, s) ->
     s = fold_right (sum_func cls) (SUM_IDENTITY cls) (map (fun '(_, _, s') => s') items)).
Proof.
  split.
  - intros Sum hf ssf sf e Hassoc Hcomm Hid fuel.
    induction fuel as [|fuel IH]; intros items depth h s H;
      (destruct items as [|[[k v] s0] [|it1 items]];
       [ rewrite hash_rec_empty in H; injection H as _ <-; reflexivity
       | rewrite hash_rec_leaf in H; destruct (ssf s0); cbn [bind] in H; [|discriminate];
         injection H as _ <-; cbn; symmetry; apply Hid
       | ]).
    + exfalso. destruct it1 as [[k1 v1] s1]. cbn [calc_summed_merbinner_hash_rec] in H.
      destruct (hash_partition depth _) as [[li ri]|e']; discriminate.
    + rewrite hash_rec_inner in H by (cbn; lia).
      match type of H with
      | context [hash_partition depth ?its] =>
          destruct (hash_partition depth its) as [[li ri]|e'] eqn:Ep; [|discriminate]
      end.
      cbn [bind] in H.
      destruct (hash_partition_ok _ _ _ _ Ep) as [-> ->].
      match type of H with
      | context [calc_summed_merbinner_hash_rec hf ssf sf e fuel ?L (S depth)] =>
          destruct (calc_summed_merbinner_hash_rec hf ssf sf e fuel L (S depth))
            as [[lh ls]|e'] eqn:El; cbn [bind] in H; [|discriminate]
      end.
      match type of H with
      | context [calc_summed_merbinner_hash_rec hf ssf sf e fuel ?R (S depth)] =>
          destruct (calc_summed_merbinner_hash_rec hf ssf sf e fuel R (S depth))
            as [[rh rs]|e'] eqn:Er; cbn [bind] in H; [|discriminate]
      end.
      destruct (ssf ls); cbn [bind] in H; [|discriminate].
      destruct (ssf rs); cbn [bind] in H; [|discriminate].
      injection H as _ <-.
      rewrite (IH _ _ _ _ El), (IH _ _ _ _ Er).
      match goal with
      | |- context [filter ?f ?l] =>
          pose proof (fold_filter_split (fun '(_, _, s') => s') sf e Hassoc Hcomm f l) as Hs
      end.
      cbv beta in Hs. etransitivity; [exact Hs|apply Hid].
  - intros hmac V Sum cls Hassoc Hcomm Hid fuel.
    induction fuel as [|fuel IH]; intros ctx items depth out s H;
      (destruct items as [|[[k v] s0] [|it1 items]];
       [ rewrite tree_recurse_empty in H; injection H as _ <-; reflexivity
       | rewrite tree_recurse_leaf in H;
         destruct (key_serialize cls ctx k); cbn [bind] in H; [|discriminate];
         destruct (value_serialize cls ctx v); cbn [bind] in H; [|discriminate];
         injection H as _ <-; cbn; symmetry; apply Hid
       | ]).
    + exfalso. destruct it1 as [[k1 v1] s1]. cbn [tree_recurse] in H.
      destruct (tree_partition cls depth _) as [[li ri]|e']; discriminate.
    + rewrite tree_recurse_inner in H by (cbn; lia).
      match type of H with
      | context [tree_partition cls depth ?its] =>
          destruct (tree_partition cls depth its) as [[li ri]|e'] eqn:Ep; [|discriminate]
      end.
      cbn [bind] in H.
      destruct (tree_partition_ok cls _ _ _ _ Ep) as [_ [-> ->]].
      assert (Hdo : forall L d' r ls, tree_do_recurse hmac cls fuel ctx L d' = Ok (r, ls) ->
                ls = fold_right (sum_func cls) (SUM_IDENTITY cls) (map (fun '(_, _, s') => s') L)).
      { intros L d' r ls Hd. unfold tree_do_recurse in Hd. destruct ctx.
        - exact (IH _ _ _ _ _ Hd).
        - destruct (tree_recurse hmac cls fuel HashCtx L (S d')) as [[nc sm]|e'] eqn:E;
            cbn [bind] in Hd; [|discriminate].
          destruct (write_bytes _ _); cbn [bind] in Hd; [|discriminate].
          destruct (sum_serialize cls HashCtx sm); cbn [bind] in Hd; [|discriminate].
          injection Hd as _ <-. exact (IH _ _ _ _ _ E). }
      match type of H with
      | context [tree_do_recurse hmac cls fuel ctx ?L depth] =>
          destruct (tree_do_recurse hmac cls fuel ctx L depth)
            as [[l ls]|e'] eqn:El; cbn [bind] in H; [|discriminate]
      end.
      match type of H with
      | context [tree_do_recurse hmac cls fuel ctx ?R depth] =>
          destruct (tree_do_recurse hmac cls fuel ctx R depth)
            as [[r rs]|e'] eqn:Er; cbn [bind] in H; [|discriminate]
      end.
      injection H as _ <-.
      rewrite (Hdo _ _ _ _ El), (Hdo _ _ _ _ Er).
      match goal with
      | |- context [filter ?f ?l] =>
          pose proof (fold_filter_split (fun '(_, _, s') => s') (sum_func cls) (SUM_IDENTITY cls)
                        Hassoc Hcomm f l) as Hs
      end.
      cbv beta in Hs. etransitivity; [exact Hs|apply Hid].
Qed.

(** ** Serialization succeeds for keys of one length *)

Lemma side_of_head b k i :
  i < 8 -> side_of i (b :: k) = N.testbit (Byte.to_N b) (N.of_nat (7 - i)).
Proof.
  intros Hi. unfold side_of.
  rewrite (key_side_spec (b :: k) i b) by (rewrite Nat.div_small by lia; reflexivity).
  rewrite Nat.mod_small by lia. reflexivity.
Qed.

Lemma side_of_cons8 b k i : side_of (8 + i) (b :: k) = side_of i k.
Proof.
  unfold side_of, key_side.
  replace ((8 + i) / 8) with (S (i / 8)).
  2: { replace (8 + i) with (1 * 8 + i) by lia. rewrite Nat.div_add_l by lia. reflexivity. }
  replace ((8 + i) mod 8) with (i mod 8).
  2: { replace (8 + i) with (i + 1 * 8) by lia. rewrite Nat.Div0.mod_add. reflexivity. }
  reflexivity.
Qed.

Lemma byte_eq_bits b1 b2 :
  (forall j, j < 8 -> N.testbit (Byte.to_N b1) (N.of_nat j) = N.testbit (Byte.to_N b2) (N.of_nat j)) ->
  b1 = b2.
Proof.
  intros H.
  assert (E : Byte.to_N b1 = Byte.to_N b2).
  { apply N.bits_inj. intros n. destruct (N.lt_ge_cases n 8) as [Hn|Hn].
    - replace n with (N.of_nat (N.to_nat n)) by lia. apply H. lia.
    - assert (Hlog : forall b, (N.log2 (Byte.to_N b) < n)%N).
      { intros b. pose proof (N.log2_le_mono _ _ (Byte.to_N_bounded b)) as Hl.
        change (N.log2 255) with 7%N in Hl. lia. }
      rewrite !N.bits_above_log2 by apply Hlog. reflexivity. }
  assert (Some b1 = Some b2) as Hs
    by (rewrite <- (Byte.of_to_N b1), <- (Byte.of_to_N b2), E; reflexivity).
  injection Hs as Hs. exact Hs.
Qed.

(** Two keys of one length that take the same side at every depth are
    the same key. *)
Lemma keys_eq_bits k1 : forall k2,
  length k1 = length k2 ->
  (forall i, i < 8 * length k1 -> side_of i k1 = side_of i k2) -> k1 = k2.
Proof.
  induction k1 as [|b1 k1 IH]; intros [|b2 k2] Hl Hs; cbn in Hl; try discriminate;
    [reflexivity|].
  f_equal.
  - apply byte_eq_bits. intros j Hj.
    pose proof (Hs (7 - j) ltac:(cbn [length]; lia)) as Hj'.
    rewrite !side_of_head in Hj' by lia.
    replace (7 - (7 - j)) with j in Hj' by lia. exact Hj'.
  - apply IH; [lia|]. intros i Hi.
    rewrite <- (side_of_cons8 b1 k1), <- (side_of_cons8 b2 k2). apply Hs. cbn [length]. lia.
Qed.

Lemma max_key_len_ge {T} (g : T -> list byte) x l :
  In x l -> length (g x) <= max_key_len g l.
Proof.
  unfold max_key_len. induction l as [|y l IH]; cbn; [intros []|].
  intros [->|Hin]; [lia|]. specialize (IH Hin). lia.
Qed.

Section Totality.

Variable hmac : list byte -> list byte -> list byte.
Context {V Sum : Type}.
Variable cls : MerbinnerClass V Sum.
Variable ctx : ctx_kind.

(** Under a hashing context the digests are 32 bytes and every sum can
    be written. *)
Hypothesis hash_ctx_ok : ctx = HashCtx ->
  (forall m, length (hmac (HASH_HMAC_KEY cls) m) = 32) /\
  (forall s, exists sb, sum_serialize cls HashCtx s = Ok sb).

Variable L : nat.

Lemma tree_recurse_total fuel : forall items depth,
  NoDup (map item_key items) ->
  (forall it, In it items -> length (item_key it) = L) ->
  agree_below depth items ->
  8 * L <= depth + fuel ->
  (forall key value sum, In (key, value, sum) items ->
     (exists k, key_serialize cls ctx key = Ok k) /\
     (exists v, value_serialize cls ctx value = Ok v)) ->
  exists out s, tree_recurse hmac cls fuel ctx items depth = Ok (out, s).
Proof.
  induction fuel as [|fuel IH]; intros items depth Hnd Hlen Hag Hf Hc;
    (destruct items as [|[[k0 v0] s0] [|it1 items]];
     [ rewrite tree_recurse_empty; eauto
     | rewrite tree_recurse_leaf;
       destruct (Hc k0 v0 s0 (or_introl eq_refl)) as [[k Ek] [v Ev]];
       rewrite Ek, Ev; cbn [bind]; eauto
     | ]);
    (assert (Hd : depth < 8 * L);
     [ destruct (Nat.lt_ge_cases depth (8 * L)) as [Hlt|Hge]; [exact Hlt|exfalso];
       apply NoDup_cons_iff in Hnd as [Hn _]; apply Hn; cbn [map item_key];
       replace k0 with (item_key it1); [left; reflexivity|];
       apply keys_eq_bits;
       [ rewrite (Hlen it1 (or_intror (or_introl eq_refl)));
         exact (eq_sym (Hlen (k0, v0, s0) (or_introl eq_refl)))
       | intros i Hi; rewrite (Hlen it1 (or_intror (or_introl eq_refl))) in Hi;
         apply (Hag it1 (k0, v0, s0)); cbn; auto; lia ]
     | ]).
  - exfalso. lia.
  - set (its := (k0, v0, s0) :: it1 :: items) in *.
    rewrite tree_recurse_inner by (cbn; lia).
    rewrite tree_partition_total.
    2: { intros it Hin. unfold key_side.
         destruct (nth_error (item_key it) (depth / 8)) as [b|] eqn:E; [eauto|].
         apply nth_error_None in E. rewrite (Hlen it Hin) in E.
         exfalso. pose proof (Nat.Div0.mul_div_le depth 8). lia. }
    cbn [bind].
    assert (Hsub : forall (f : tree_item -> bool),
      (forall it, In it its -> f it = true -> side_of depth (item_key it) = f it) \/
      (forall it, In it its -> f it = true -> side_of depth (item_key it) = negb (f it)) ->
      forall l0, l0 = its ->
      exists out s, tree_do_recurse hmac cls fuel ctx (filter f l0) depth = Ok (out, s)).
    { intros f Hside l0 ->.
      assert (Hrec : exists out s, tree_recurse hmac cls fuel ctx (filter f its) (S depth) = Ok (out, s)).
      { apply IH.
        - apply NoDup_map_filter. exact Hnd.
        - intros it Hin. apply filter_In in Hin as [Hin _]. exact (Hlen it Hin).
        - intros a b Ha Hb i Hi. apply filter_In in Ha as [Ha Fa].
          apply filter_In in Hb as [Hb Fb].
          destruct (Nat.lt_ge_cases i depth) as [Hlt|Hge]; [exact (Hag a b Ha Hb i Hlt)|].
          replace i with depth by lia.
          destruct Hside as [Hs|Hs]; rewrite (Hs a Ha Fa), (Hs b Hb Fb), Fa, Fb; reflexivity.
        - lia.
        - intros key value sum Hin. apply filter_In in Hin as [Hin _]. exact (Hc _ _ _ Hin). }
      destruct Hrec as [out [s Hrec]]. unfold tree_do_recurse. destruct ctx eqn:Ectx.
      - rewrite Hrec. eauto.
      - destruct (hash_ctx_ok eq_refl) as [Hlen32 Hsum].
        rewrite Hrec. cbn [bind].
        rewrite write_bytes_fixed by apply Hlen32. cbn [bind].
        destruct (Hsum s) as [sb Esb]. rewrite Esb. cbn [bind]. eauto. }
    do 2 (match goal with
          | |- context [tree_do_recurse hmac cls fuel ctx (filter ?f ?l0) depth] =>
              destruct (Hsub f) with l0 as [? [? El]];
              [ first [ left; intros it _ _; reflexivity
                      | right; intros it _ _; cbv beta; rewrite negb_involutive; reflexivity ]
              | reflexivity
              | rewrite El; cbn [bind]; clear El ]
          end).
    eauto.
Qed.

Lemma tree_items_total self :
  (forall key value, In (key, value) self -> exists s, value_getsum cls value = Ok s) ->
  exists items, tree_items cls self = Ok items.
Proof.
  induction self as [|[k0 v0] self IH]; intros Hs.
  { exists []. reflexivity. }
  cbn [tree_items]. destruct (Hs k0 v0 (or_introl eq_refl)) as [s Es]. rewrite Es.
  cbn [bind]. destruct IH as [its Eits]; [intros k v Hin; apply (Hs k v); right; exact Hin|].
  rewrite Eits. cbn [bind]. eauto.
Qed.

Lemma ctx_serialize_total self :
  NoDup (map fst self) ->
  (forall key value, In (key, value) self ->
     length key = L /\
     (exists k, key_serialize cls ctx key = Ok k) /\
     (exists v, value_serialize cls ctx value = Ok v) /\
     (exists s, value_getsum cls value = Ok s)) ->
  exists out, ctx_serialize hmac cls ctx self = Ok out.
Proof.
  intros Hnd Hent. unfold ctx_serialize.
  destruct (tree_items_total self) as [items Ei].
  { intros key value Hin. apply (Hent key value Hin). }
  rewrite Ei. cbn [bind].
  destruct (tree_items_ok cls _ _ Ei) as [Hm Hs].
  assert (Hin_self : forall key value sum, In (key, value, sum) items -> In (key, value) self).
  { intros key value sum Hin. rewrite <- Hm. apply (in_map item_entry) in Hin. exact Hin. }
  destruct self as [|[key0 value0] self'] eqn:Eself.
  - cbn in Ei. injection Ei as <-. rewrite tree_recurse_empty. cbn [bind]. eauto.
  - destruct (tree_recurse_total (tree_fuel self) items 0) as [out [s Et]].
    + rewrite <- map_fst_item_entry, Hm. exact Hnd.
    + intros [[key value] sum] Hin. exact (proj1 (Hent _ _ (Hin_self _ _ _ Hin))).
    + intros a b _ _ i Hi. lia.
    + rewrite Eself. unfold tree_fuel.
      pose proof (proj1 (Hent key0 value0 (or_introl eq_refl))) as HL.
      pose proof (max_key_len_ge fst (key0, value0) ((key0, value0) :: self')
                    (or_introl eq_refl)). cbn [fst] in *. lia.
    + intros key value sum Hin.
      destruct (Hent _ _ (Hin_self _ _ _ Hin)) as [_ [Hk [Hv _]]]. split; assumption.
    + rewrite <- Eself. rewrite Et. cbn [bind]. eauto.
Qed.

End Totality.

(** Extra: for a tree class of the test suite, [serialize] never raises
    on a [dict] whose keys all have one length, provided the class writes
    each key and value and computes each value's sum. (Two distinct keys
    of one length differ at some bit, so the recursion splits them before
    it runs past the key's end.) *)
Theorem serialize_succeeds_equal_length_keys hmac (cls : MerbinnerClass (list byte) N)
  (Hcls : In cls test_tree_classes)
  (self : entries) (L : nat)
  (Hdict : NoDup (map fst self))
  (Hent : forall key value, In (key, value) self ->
     length key = L /\
     (exists k, key_serialize cls BytesCtx key = Ok k) /\
     (exists v, value_serialize cls BytesCtx value = Ok v) /\
     (exists s, value_getsum cls value = Ok s)) :
  exists b, serialize hmac cls self = Ok b.
Proof.
  apply (ctx_serialize_total hmac cls BytesCtx) with L; [|exact Hdict|exact Hent].
  intros H. discriminate H.
Qed.

Lemma serialize_succeeds_equal_length_keys_witness :
  In BytesBytesMerbinnerTree test_tree_classes /\
  NoDup (map fst roundtrip_tree) /\
  exists b, serialize zero_digest BytesBytesMerbinnerTree roundtrip_tree = Ok b.
Proof.
  split; [left; reflexivity|].
  split; [exact roundtrip_tree_dict|].
  apply (serialize_succeeds_equal_length_keys zero_digest BytesBytesMerbinnerTree
           (or_introl eq_refl) roundtrip_tree 4).
  - exact roundtrip_tree_dict.
  - intros key value [E|[E|[]]]; injection E as <- <-;
      (split; [reflexivity|split; [|split]]; eexists; reflexivity).
Defined.



(** Extra: every [BytesBytesMerbinnerTree] [dict] with 4-byte keys and
    4-byte values serializes, and deserializing its bytes gives back a
    [dict] with the same entries (possibly in another insertion order). *)
Theorem bytesbytes_dict_roundtrip hmac (self : entries (V := list byte))
  (Hdict : NoDup (map fst self))
  (Hlen : forall key value, In (key, value) self -> length key = 4 /\ length value = 4) :
  exists b self', serialize hmac BytesBytesMerbinnerTree self = Ok b /\
    deserialize BytesBytesMerbinnerTree b = Ok self' /\ Permutation self' self.
Proof.
  destruct (ctx_serialize_total hmac BytesBytesMerbinnerTree BytesCtx
              (fun H => ltac:(discriminate H)) 4 self Hdict) as [b Eb].
  { intros key value Hin. destruct (Hlen key value Hin) as [Hk Hv].
    split; [exact Hk|split; [|split]].
    - exists key. exact (write_bytes_fixed key 4 Hk).
    - exists value. exact (write_bytes_fixed value 4 Hv).
    - exists 0%N. reflexivity. }
  destruct (serialize_decodes hmac BytesBytesMerbinnerTree (proj1 bytesbytes_codecs)
              (proj2 bytesbytes_codecs) self b Hdict Eb) as [self' [Hp [Hd _]]].
  exists b, self'. split; [exact Eb|split; [|exact Hp]].
  rewrite <- (app_nil_r b). exact (Hd []).
Qed.

Lemma bytesbytes_dict_roundtrip_witness :
  NoDup (map fst roundtrip_tree) /\
  exists b self', serialize zero_digest BytesBytesMerbinnerTree roundtrip_tree = Ok b /\
    deserialize BytesBytesMerbinnerTree b = Ok self' /\ Permutation self' roundtrip_tree.
Proof.
  split; [exact roundtrip_tree_dict|].
  apply (bytesbytes_dict_roundtrip zero_digest roundtrip_tree).
  - exact roundtrip_tree_dict.
  - intros key value [E|[E|[]]]; injection E as <- <-; split; reflexivity.
Defined.

(** ** JSON serialization of a tree *)

Section JsonProofs.

Context {V Sum : Type}.
Variable cls : MerbinnerClass V Sum.
Variable key_json_serialize : json_pairs -> list byte -> result json_pairs.
Variable value_json_serialize : json_pairs -> V -> result json_pairs.

(** Once [type] is in [pairs], every node fails its first write. *)
Lemma json_recurse_type_taken fuel pairs items depth :
  json_has pairs attr_type = true ->
  json_tree_recurse cls key_json_serialize value_json_serialize fuel pairs items depth
  = Err AssertionError.
Proof.
  intros H.
  destruct fuel, items as [|[[k v] s] [|it items]]; cbn [json_tree_recurse];
    unfold json_write_varuint; rewrite H; reflexivity.
Qed.

(** An inner node written to a fresh context fails: with [IndexError]
    from the partition, or with [AssertionError] when its first child
    writes [type] again. *)
Lemma json_recurse_inner fuel items depth :
  2 <= length items ->
  exists e, json_tree_recurse cls key_json_serialize value_json_serialize fuel [] items depth = Err e /\
    (sides_defined depth items -> 0 < fuel -> e = AssertionError).
Proof.
  intros H2. destruct items as [|[[k0 v0] s0] [|it1 items]]; cbn [length] in H2; try lia.
  destruct fuel as [|f]; cbn [json_tree_recurse]; unfold json_write_varuint;
    cbn [json_has existsb app bind];
    (match goal with
     | |- context [tree_partition cls depth ?its] =>
         destruct (tree_partition cls depth its) as [[l r]|e] eqn:Ep
     end;
     cbn [bind];
     [ | exists e; split; [reflexivity|];
         intros Hd _; rewrite tree_partition_total in Ep by exact Hd; discriminate Ep ]).
  - exists OutOfFuel. split; [reflexivity|intros _ Hf; lia].
  - fold (json_write_varuint [(attr_type, JInt 2)] attr_type).
    rewrite json_recurse_type_taken by reflexivity. cbn [bind].
    exists AssertionError. split; reflexivity.
Qed.

End JsonProofs.

(** The JSON serialization of two entries or more, in the model. *)
Lemma json_serialize_inner {V Sum} (cls : MerbinnerClass V Sum)
  key_json_serialize value_json_serialize (self : entries) :
  2 <= length self ->
  (forall pairs, json_serialize cls key_json_serialize value_json_serialize self <> Ok pairs) /\
  ((forall key value, In (key, value) self ->
      key <> [] /\ exists s, value_getsum cls value = Ok s) ->
   json_serialize cls key_json_serialize value_json_serialize self = Err AssertionError).
Proof.
  intros H2. unfold json_serialize.
  destruct (tree_items cls self) as [items|e] eqn:Ei; cbn [bind].
  2: { split; [intros p; discriminate|]. intros Hent.
       destruct (tree_items_total cls self) as [its Eits];
         [intros key value Hin; exact (proj2 (Hent key value Hin))|].
       rewrite Ei in Eits. discriminate Eits. }
  destruct (tree_items_ok cls _ _ Ei) as [Hm _].
  assert (Hl : 2 <= length items) by (rewrite <- Hm, length_map in H2; exact H2).
  destruct (json_recurse_inner cls key_json_serialize value_json_serialize (tree_fuel self)
              items 0 Hl) as [e [Ee He]].
  rewrite Ee. cbn [bind]. split; [intros p; discriminate|].
  intros Hent. f_equal. apply He.
  - intros [[key value] sum] Hin. unfold key_side.
    assert (Hin' : In (key, value) self)
      by (rewrite <- Hm; exact (in_map item_entry _ _ Hin)).
    destruct (Hent key value Hin') as [Hk _]. cbn [item_key].
    destruct key as [|b key]; [contradiction|]. cbn. eauto.
  - destruct self as [|[key value] self']; [cbn in H2; lia|].
    destruct (Hent key value (or_introl eq_refl)) as [Hk _].
    pose proof (max_key_len_ge fst (key, value) ((key, value) :: self') (or_introl eq_refl)).
    destruct key; [contradiction|]. unfold tree_fuel. cbn [fst length] in *. lia.
Qed.


(** Extra: [json_serialize] of a tree with two entries or more never
    returns: every node writes the attribute [type] into the one [pairs]
    dict of the JSON context, and the second write fails its assertion.
    For a tree class of the test suite, when every key is non-empty and
    every value's sum can be computed, the exception is that
    [AssertionError]. *)
Theorem json_serialize_two_entries_raises :
  (forall {V Sum} (cls : MerbinnerClass V Sum) key_json_serialize value_json_serialize
     (self : entries),
     2 <= length self ->
     forall pairs, json_serialize cls key_json_serialize value_json_serialize self <> Ok pairs) /\
  (forall (cls : MerbinnerClass (list byte) N) key_json_serialize value_json_serialize
     (self : entries),
     In cls test_tree_classes -> 2 <= length self ->
     (forall key value, In (key, value) self ->
        key <> [] /\ exists s, value_getsum cls value = Ok s) ->
     json_serialize cls key_json_serialize value_json_serialize self = Err AssertionError).
Proof.
  split.
  - intros V Sum cls kj vj self H2. exact (proj1 (json_serialize_inner cls kj vj self H2)).
  - intros cls kj vj self _ H2. exact (proj2 (json_serialize_inner cls kj vj self H2)).
Qed.

Lemma json_serialize_two_entries_raises_witness :
  In BytesBytesMerbinnerTree test_tree_classes /\
  2 <= length roundtrip_tree /\
  json_serialize BytesBytesMerbinnerTree bytesbytes_key_json bytesbytes_value_json roundtrip_tree
  = Err AssertionError.
Proof.
  split; [left; reflexivity|].
  split; [cbn; lia|].
  apply (proj2 json_serialize_two_entries_raises BytesBytesMerbinnerTree bytesbytes_key_json
           bytesbytes_value_json roundtrip_tree).
  - left. reflexivity.
  - cbn. lia.
  - intros key value [E|[E|[]]]; injection E as <- <-;
      (split; [discriminate|eexists; reflexivity]).
Defined.
